(** * mysql-binlog-filter: wire codec, packet framer and password scrambles

    A shallow embedding of the [binlog] package: the primitive encoders and
    decoders of the MySQL wire format, the packet framer with its sequence
    counter, the capability bitmask mapper and the two password scrambles,
    together with the properties stated about them. *)

From Stdlib Require Import String Strings.Byte DecimalString.
From Stdlib Require Import ZArith List Lia Bool.
Import ListNotations.
Open Scope Z_scope.

(** ** Bytes and fixed-width unsigned integers *)

Definition byte := Byte.byte.

Definition byte_to_Z (b : byte) : Z := Z.of_N (Byte.to_N b).

(** Go's conversion [byte(v)]: the low eight bits of [v]. *)
Definition byte_of_Z (z : Z) : byte :=
  match Byte.of_N (Z.to_N (z mod 256)) with
  | Some b => b
  | None => Byte.x00
  end.

(** Conversion to an unsigned integer type of [w] bits keeps the low [w] bits. *)
Definition uint (w : Z) (z : Z) : Z := z mod 2 ^ w.
Definition uint8 := uint 8.
Definition uint16 := uint 16.
Definition uint32 := uint 32.
Definition uint64 := uint 64.

Definition NullByte : byte := Byte.x00.
Definition MaxUint08 : Z := 2 ^ 8 - 1.
Definition MaxUint16 : Z := 2 ^ 16 - 1.
Definition MaxUint24 : Z := 2 ^ 24 - 1.
Definition MaxUint64 : Z := 2 ^ 64 - 1.

(** [len] of a slice, as a Go [int]. *)
Definition len {A} (l : list A) : Z := Z.of_nat (length l).

(** [make([]byte, n)]. *)
Definition make (n : nat) : list byte := repeat NullByte n.

(** ** encoding/binary, little endian *)

(** The [k] low bytes of [v], least significant first. *)
Fixpoint le_bytes (k : nat) (v : Z) : list byte :=
  match k with
  | O => []
  | S k' => byte_of_Z v :: le_bytes k' (Z.shiftr v 8)
  end.

(** [binary.LittleEndian.PutUintN(b, v)] overwrites the first [k] bytes of
    [b] and keeps the others. *)
Definition PutUint (k : nat) (b : list byte) (v : Z) : list byte :=
  le_bytes k v ++ skipn k b.
Definition PutUint16 := PutUint 2.
Definition PutUint32 := PutUint 4.
Definition PutUint64 := PutUint 8.

(** The value of a little-endian byte string. *)
Fixpoint le_value (bs : list byte) : Z :=
  match bs with
  | [] => 0
  | b :: r => Z.lor (byte_to_Z b) (Z.shiftl (le_value r) 8)
  end.

(** [binary.LittleEndian.UintN(b)]: indexing past the end of [b] panics,
    which is [None] here. *)
Definition Uint (k : nat) (b : list byte) : option Z :=
  if (length b <? k)%nat then None else Some (le_value (firstn k b)).

(** [binary.Read(r, binary.LittleEndian, &x)] for an [x] of [k] bytes: it
    fails, leaving [x] alone, when the reader holds fewer than [k] bytes. The
    callers drop the error, so [x] keeps its zero value then. *)
Definition binary_Read (k : nat) (r : list byte) : option Z := Uint k r.

Definition read_or_zero (k : nat) (r : list byte) : Z :=
  match binary_Read k r with
  | Some x => x
  | None => 0
  end.

(** ** Connection state *)

Definition error := string.

(** [bufio.Scanner] split with [ScanBytes] over the transport: the bytes the
    transport will still deliver, then either a clean end of stream
    ([fault = None]) or a read error. *)
Record Scanner := mkScanner {
  pending : list byte;
  fault : option error
}.

(** [bufio.Writer] over the transport: the bytes held back until the next
    flush, the chunks delivered to the transport so far (one per flush), the
    writer's sticky error, and the failure the transport will answer the next
    delivery with ([down = None] for a healthy transport). *)
Record Writer := mkWriter {
  held : list byte;
  sent : list (list byte);
  werr : option error;
  down : option error
}.

Record PacketHeader := mkPacketHeader {
  Length : Z;
  SequenceID : Z;
  Status : Z
}.

Record Conn := mkConn {
  scanner : Scanner;
  buffer : Writer;
  err : option error;
  sequenceID : Z;
  writeBuf : option (list byte);
  packetHeader : option PacketHeader;
  scanPos : Z
}.

Definition set_scanner (s : Scanner) (c : Conn) : Conn :=
  mkConn s (buffer c) (err c) (sequenceID c) (writeBuf c) (packetHeader c) (scanPos c).
Definition set_buffer (w : Writer) (c : Conn) : Conn :=
  mkConn (scanner c) w (err c) (sequenceID c) (writeBuf c) (packetHeader c) (scanPos c).
Definition set_err (e : option error) (c : Conn) : Conn :=
  mkConn (scanner c) (buffer c) e (sequenceID c) (writeBuf c) (packetHeader c) (scanPos c).
Definition set_sequenceID (n : Z) (c : Conn) : Conn :=
  mkConn (scanner c) (buffer c) (err c) n (writeBuf c) (packetHeader c) (scanPos c).
Definition set_writeBuf (b : option (list byte)) (c : Conn) : Conn :=
  mkConn (scanner c) (buffer c) (err c) (sequenceID c) b (packetHeader c) (scanPos c).
Definition set_scanPos (n : Z) (c : Conn) : Conn :=
  mkConn (scanner c) (buffer c) (err c) (sequenceID c) (writeBuf c) (packetHeader c) n.

(** ** A state monad with panics for the methods of [*Conn] *)

Inductive Res (A : Type) : Type :=
| Val (a : A)
| Panic (e : error).
Arguments Val {A} a.
Arguments Panic {A} e.

Definition M (A : Type) : Type := Conn -> Res (A * Conn).

Definition ret {A} (a : A) : M A := fun c => Val (a, c).
Definition bind {A B} (m : M A) (k : A -> M B) : M B :=
  fun c => match m c with
           | Val (a, c') => k a c'
           | Panic e => Panic e
           end.
Definition panic {A} (e : error) : M A := fun _ => Panic e.
Definition get : M Conn := fun c => Val (c, c).
Definition modify (f : Conn -> Conn) : M unit := fun c => Val (tt, f c).
Definition lift {A} (r : Res A) : M A :=
  fun c => match r with Val a => Val (a, c) | Panic e => Panic e end.

Notation "x <- m ;; k" := (bind m (fun x => k))
  (at level 61, m at next level, right associativity).
Notation "m ;;; k" := (bind m (fun _ => k))
  (at level 61, right associativity).

(** ** Reading from the transport *)

(** [c.scanner.Scan()] followed by [c.scanner.Bytes()]: the next byte, if the
    transport delivers one. *)
Definition Scan (s : Scanner) : option byte * Scanner :=
  match pending s with
  | b :: r => (Some b, mkScanner r (fault s))
  | [] => (None, s)
  end.

(** [c.scanner.Err()] after a failed [Scan]: the read error, and [nil] at a
    clean end of stream. *)
Definition Err (s : Scanner) : option error :=
  match pending s with
  | [] => fault s
  | _ :: _ => None
  end.

(** The loop of [readBytes]: [n] rounds, each appending the scanned byte; a
    round whose scan fails panics on a read error and otherwise goes on. *)
Fixpoint readLoop (n : nat) (s : Scanner) (b : list byte) : Res (list byte * Scanner) :=
  match n with
  | O => Val (b, s)
  | S n' =>
      match Scan s with
      | (Some x, s') => readLoop n' s' (b ++ [x])
      | (None, s') =>
          match Err s' with
          | Some e => Panic e
          | None => readLoop n' s' b
          end
      end
  end.

Definition readBytes (l : Z) : M (list byte) :=
  fun c =>
    match readLoop (Z.to_nat l) (scanner c) [] with
    | Val (b, s) =>
        Val (b, set_scanPos (uint64 (scanPos c + len b)) (set_scanner s c))
    | Panic e => Panic e
    end.

(** ** Decoders *)

Definition padBytes (l : Z) (b : list byte) : list byte :=
  b ++ repeat NullByte (Z.to_nat (l - len b)).

Definition decFixedInt (l : Z) : M Z :=
  b <- readBytes l ;;
  ret (if l <=? 2 then uint64 (read_or_zero 2 (padBytes 2 b))
       else if l <=? 4 then uint64 (read_or_zero 4 (padBytes 4 b))
       else if l <=? 8 then read_or_zero 8 (padBytes 8 b)
       else 0).

Definition decLenEncInt : M Z :=
  b <- readBytes 1 ;;
  let l := read_or_zero 2 b in
  if 0 <? l then decFixedInt (uint64 l) else ret 0.

(** ** Encoders *)

(** [b[:l]] of an eight-byte buffer panics for [l > 8]. *)
Definition encFixedLenInt (v : Z) (l : Z) : Res (list byte) :=
  let b := PutUint64 (make 8) v in
  if l <=? 8 then Val (firstn (Z.to_nat l) b)
  else Panic "slice bounds out of range"%string.

Definition encLenEncInt (v : Z) : list byte :=
  let '(prefix, b) :=
    if v <? MaxUint08 then
      ([Byte.x00], firstn 1 (PutUint16 (make 2) (uint16 v)))
    else if (MaxUint08 <=? v) && (v <? MaxUint16) then
      ([Byte.xfc], firstn 2 (PutUint16 (make 3) (uint16 v)))
    else if (MaxUint16 <=? v) && (v <? MaxUint24) then
      ([Byte.xfd], firstn 3 (PutUint32 (make 4) (uint32 v)))
    else if (MaxUint24 <=? v) && (v <? MaxUint64) then
      ([Byte.xfe], PutUint64 (make 9) v)
    else ([Byte.x00], [])
  in
  if 1 <? len b then prefix ++ b else b.

(** ** Writing to the transport *)

(** [bufio.Writer.Write]: nothing is accepted once the writer has failed. *)
Definition Writer_Write (p : list byte) (w : Writer) : Writer :=
  match werr w with
  | Some _ => w
  | None => mkWriter (held w ++ p) (sent w) (werr w) (down w)
  end.

(** [bufio.Writer.Flush]: delivers the held bytes as one chunk; a failure of
    the transport sticks to the writer. *)
Definition Writer_Flush (w : Writer) : option error * Writer :=
  match werr w with
  | Some e => (Some e, w)
  | None =>
      match down w with
      | Some e => (Some e, mkWriter (held w) (sent w) (Some e) (down w))
      | None => (None, mkWriter [] (sent w ++ [held w]) None None)
      end
  end.

Definition nil_deref : error := "invalid memory address or nil pointer dereference"%string.

(** [newBinlogConn] followed by [setConnection]: every field has its zero
    value but the sequence counter, which starts at 1. *)
Definition newBinlogConn (s : Scanner) (w : Writer) : Conn :=
  mkConn s w None 1 None None 0.

Definition setupWriteBuffer : M unit :=
  modify (fun c => match writeBuf c with
                   | None => set_writeBuf (Some []) c
                   | Some _ => c
                   end).

(** [c.writeBuf.Write(b)]: [bytes.Buffer.Write] appends and reports the
    number of bytes with a [nil] error; on a [nil] buffer it panics. *)
Definition writeBuf_Write (b : list byte) : M (Z * option error) :=
  fun c => match writeBuf c with
           | None => Panic nil_deref
           | Some w => Val ((len b, None), set_writeBuf (Some (w ++ b)) c)
           end.

(** The tail shared by the [put] methods: write, keep the first error. *)
Definition write_and_record (b : list byte) : M Z :=
  r <- writeBuf_Write b ;;
  match snd r with
  | Some e => modify (set_err (Some e))
  | None => ret tt
  end ;;;
  ret (uint64 (fst r)).

Definition TypeFixedInt : Z := 2.
Definition TypeLenEncInt : Z := 3.

Definition putInt (t : Z) (v : Z) (l : Z) : M Z :=
  setupWriteBuffer ;;;
  b <- (if t =? TypeFixedInt then lift (encFixedLenInt v l)
        else if t =? TypeLenEncInt then ret (encLenEncInt v)
        else ret []) ;;
  write_and_record b.

Definition putNullBytes (n : Z) : M Z :=
  setupWriteBuffer ;;;
  write_and_record (make (Z.to_nat n)).

Definition putBytes (v : list byte) : M Z :=
  setupWriteBuffer ;;;
  write_and_record v.

Definition addHeader : M (list byte) :=
  c <- get ;;
  match writeBuf c with
  | None => panic nil_deref
  | Some w =>
      let pl := uint64 (len w) in
      let sID := sequenceID c in
      modify (set_sequenceID (uint64 (sID + 1))) ;;;
      plB <- lift (encFixedLenInt pl 3) ;;
      sIDB <- lift (encFixedLenInt sID 1) ;;
      ret ((plB ++ sIDB) ++ w)
  end.

Definition Flush : M (option error) :=
  c <- get ;;
  match err c with
  | Some e => ret (Some e)
  | None =>
      framed <- addHeader ;;
      modify (set_writeBuf (Some framed)) ;;;
      modify (fun c => set_buffer (Writer_Write framed (buffer c)) c) ;;;
      c1 <- get ;;
      let (e1, w1) := Writer_Flush (buffer c1) in
      modify (set_buffer w1) ;;;
      match e1 with
      | Some _ =>
          let (e2, w2) := Writer_Flush w1 in
          modify (set_buffer w2) ;;;
          ret e2
      | None =>
          modify (set_writeBuf None) ;;;
          ret None
      end
  end.

(** [c.sequenceID = 0], as [Open] does once authentication has succeeded and
    again once the registration command has been sent. *)
Definition resetSequenceID : M unit := modify (set_sequenceID 0).

(** Queue one payload and flush it: one outgoing packet. *)
Definition sendPacket (payload : list byte) : M (option error) :=
  putBytes payload ;;; Flush.

(** Send the payloads in order, stopping at the first flush that fails. *)
Fixpoint sendPackets (payloads : list (list byte)) : M (option error) :=
  match payloads with
  | [] => ret None
  | p :: rest =>
      e <- sendPacket p ;;
      match e with
      | Some _ => ret e
      | None => sendPackets rest
      end
  end.

(** The sequence ID carried by a framed packet: the byte after the
    three-byte length. *)
Definition frame_sequenceID (frame : list byte) : option Z :=
  option_map byte_to_Z (nth_error frame 3).

(** ** Capability bitmasks *)

(** A struct of boolean fields is the list of their values in declaration
    order; its shape is the number of fields. *)
Definition index_out_of_range : error := "index out of range"%string.

(** One round of the loop of [bitmaskToStruct]: the value of field [i]. The
    type [uint] of the one-byte case is 64 bits wide. *)
Definition bitmaskField (b : list byte) (i : Z) : Res bool :=
  let l := len b in
  if 4 <? l then
    match Uint 8 b with
    | Some x => Val (0 <? Z.land x (uint64 (Z.shiftl 1 i)))
    | None => Panic index_out_of_range
    end
  else if 2 <? l then
    match Uint 4 b with
    | Some x => Val (0 <? Z.land x (uint32 (Z.shiftl 1 i)))
    | None => Panic index_out_of_range
    end
  else if 1 <? l then
    match Uint 2 b with
    | Some x => Val (0 <? Z.land x (uint16 (Z.shiftl 1 i)))
    | None => Panic index_out_of_range
    end
  else
    match b with
    | b0 :: _ => Val (0 <? Z.land (byte_to_Z b0) (uint64 (Z.shiftl 1 i)))
    | [] => Panic index_out_of_range
    end.

Fixpoint bitmaskFields (b : list byte) (i : Z) (n : nat) : Res (list bool) :=
  match n with
  | O => Val []
  | S n' =>
      match bitmaskField b i with
      | Panic e => Panic e
      | Val v =>
          match bitmaskFields b (i + 1) n' with
          | Panic e => Panic e
          | Val r => Val (v :: r)
          end
      end
  end.

(** [bitmaskToStruct(b, s)] for an [s] whose struct type has [numField]
    boolean fields. *)
Definition bitmaskToStruct (b : list byte) (numField : nat) : Res (list bool) :=
  bitmaskFields b 0 numField.

(** The loop of [structToBitmask]: [m |= 1 << i] for every field that is
    set, from field [i] on. *)
Fixpoint maskLoop (i : Z) (fields : list bool) (m : Z) : Z :=
  match fields with
  | [] => m
  | v :: r =>
      maskLoop (i + 1) r (if v then Z.lor m (uint64 (Z.shiftl 1 i)) else m)
  end.

(** [math.Ceil(float64(fC) / 8.0)]: exact for a number of fields, as the
    division is by a power of two. *)
Definition ceil8 (fC : Z) : Z := (fC + 7) / 8.

Definition structToBitmask (s : list bool) : list byte :=
  let fC := len s in
  let m := maskLoop 0 s 0 in
  let l := uint64 (ceil8 fC) in
  let b := PutUint64 (make 8) m in
  if 4 <? l then firstn 8 b
  else if 2 <? l then firstn 4 b
  else if 1 <? l then firstn 2 b
  else firstn 1 b.

(** ** crypto/sha1 and crypto/sha256

    The two digests of the Go standard library, after FIPS 180-4, on 32-bit
    words. *)

Module Digest.

Definition w32 (z : Z) : Z := z mod 2 ^ 32.
Definition add32 (a b : Z) : Z := w32 (a + b).
Definition rotl (n : Z) (x : Z) : Z :=
  Z.lor (w32 (Z.shiftl x n)) (Z.shiftr x (32 - n)).
Definition rotr (n : Z) (x : Z) : Z := rotl (32 - n) x.

Definition Ch (x y z : Z) : Z := Z.lxor (Z.land x y) (Z.land (Z.lnot x) z).
Definition Parity (x y z : Z) : Z := Z.lxor (Z.lxor x y) z.
Definition Maj (x y z : Z) : Z :=
  Z.lxor (Z.lxor (Z.land x y) (Z.land x z)) (Z.land y z).

(** The [k] low bytes of [v], most significant first. *)
Definition be_bytes (k : nat) (v : Z) : list byte := rev (le_bytes k v).

Definition be_value (bs : list byte) : Z :=
  fold_left (fun acc b => acc * 256 + byte_to_Z b) bs 0.

(** The message, a one bit, zero bits up to 56 modulo 64 bytes, and the
    length in bits as a 64-bit big-endian integer. *)
Definition pad (msg : list byte) : list byte :=
  let n := len msg in
  msg ++ [Byte.x80] ++ repeat NullByte (Z.to_nat ((55 - n) mod 64))
      ++ be_bytes 8 (8 * n).

Fixpoint chunks (A : Type) (size : nat) (fuel : nat) (l : list A) : list (list A) :=
  match fuel with
  | O => []
  | S fuel' =>
      match l with
      | [] => []
      | _ :: _ => firstn size l :: chunks A size fuel' (skipn size l)
      end
  end.
Arguments chunks {A} size fuel l.

Definition blocks (msg : list byte) : list (list byte) :=
  let p := pad msg in chunks 64 (length p) p.

Definition words (block : list byte) : list Z :=
  map be_value (chunks 4 16 block).

(** The message schedule grows at its head: [w] holds the words computed so
    far, the latest first. *)
Fixpoint extend (next : list Z -> Z) (n : nat) (w : list Z) : list Z :=
  match n with
  | O => w
  | S n' => extend next n' (next w :: w)
  end.

Definition schedule (next : list Z -> Z) (total : nat) (block : list byte) : list Z :=
  rev (extend next (total - 16) (rev (words block))).

(** *** SHA-256 *)

(** The round constants are the first 32 bits of the fractional parts of
    the cube roots of the first 64 primes. *)
Definition is_prime (n : Z) : bool :=
  forallb (fun d => negb (n mod Z.of_nat d =? 0)) (seq 2 (Z.to_nat n - 2)).

Definition primes64 : list Z :=
  filter is_prime (map Z.of_nat (seq 2 310)).

(** The integer cube root of [x], bit by bit from bit [n - 1] down. *)
Fixpoint cbrt_bits (n : nat) (r : Z) (x : Z) : Z :=
  match n with
  | O => r
  | S n' =>
      let t := r + 2 ^ Z.of_nat n' in
      cbrt_bits n' (if t * t * t <=? x then t else r) x
  end.

Definition frac_cbrt32 (p : Z) : Z := w32 (cbrt_bits 36 0 (Z.shiftl p 96)).

Definition K256 : list Z := Eval vm_compute in map frac_cbrt32 primes64.

Record state256 := mk256 { a2 : Z; b2 : Z; c2 : Z; d2 : Z; e2 : Z; f2 : Z; g2 : Z; h2 : Z }.

Definition init256 : state256 :=
  mk256 0x6a09e667 0xbb67ae85 0x3c6ef372 0xa54ff53a
        0x510e527f 0x9b05688c 0x1f83d9ab 0x5be0cd19.

Definition Sigma0 (x : Z) : Z := Z.lxor (Z.lxor (rotr 2 x) (rotr 13 x)) (rotr 22 x).
Definition Sigma1 (x : Z) : Z := Z.lxor (Z.lxor (rotr 6 x) (rotr 11 x)) (rotr 25 x).
Definition sigma0 (x : Z) : Z := Z.lxor (Z.lxor (rotr 7 x) (rotr 18 x)) (Z.shiftr x 3).
Definition sigma1 (x : Z) : Z := Z.lxor (Z.lxor (rotr 17 x) (rotr 19 x)) (Z.shiftr x 10).

Definition next256 (w : list Z) : Z :=
  add32 (add32 (sigma1 (nth 1 w 0)) (nth 6 w 0))
        (add32 (sigma0 (nth 14 w 0)) (nth 15 w 0)).

Definition round256 (s : state256) (kw : Z * Z) : state256 :=
  let t1 := add32 (add32 (add32 (h2 s) (Sigma1 (e2 s)))
                         (add32 (Ch (e2 s) (f2 s) (g2 s)) (fst kw))) (snd kw) in
  let t2 := add32 (Sigma0 (a2 s)) (Maj (a2 s) (b2 s) (c2 s)) in
  mk256 (add32 t1 t2) (a2 s) (b2 s) (c2 s) (add32 (d2 s) t1) (e2 s) (f2 s) (g2 s).

Definition compress256 (s : state256) (block : list byte) : state256 :=
  let r := fold_left round256 (combine K256 (schedule next256 64 block)) s in
  mk256 (add32 (a2 s) (a2 r)) (add32 (b2 s) (b2 r)) (add32 (c2 s) (c2 r))
        (add32 (d2 s) (d2 r)) (add32 (e2 s) (e2 r)) (add32 (f2 s) (f2 r))
        (add32 (g2 s) (g2 r)) (add32 (h2 s) (h2 r)).

Definition sum256 (msg : list byte) : list byte :=
  let s := fold_left compress256 (blocks msg) init256 in
  be_bytes 4 (a2 s) ++ be_bytes 4 (b2 s) ++ be_bytes 4 (c2 s) ++ be_bytes 4 (d2 s)
    ++ be_bytes 4 (e2 s) ++ be_bytes 4 (f2 s) ++ be_bytes 4 (g2 s) ++ be_bytes 4 (h2 s).

(** *** SHA-1 *)

Record state1 := mk1 { a1 : Z; b1 : Z; c1 : Z; d1 : Z; e1 : Z }.

Definition init1 : state1 :=
  mk1 0x67452301 0xefcdab89 0x98badcfe 0x10325476 0xc3d2e1f0.

Definition next1 (w : list Z) : Z :=
  rotl 1 (Z.lxor (Z.lxor (nth 2 w 0) (nth 7 w 0))
                 (Z.lxor (nth 13 w 0) (nth 15 w 0))).

Definition round1 (s : state1) (tw : Z * Z) : state1 :=
  let t := fst tw in
  let f := if t <? 20 then Ch (b1 s) (c1 s) (d1 s)
           else if t <? 40 then Parity (b1 s) (c1 s) (d1 s)
           else if t <? 60 then Maj (b1 s) (c1 s) (d1 s)
           else Parity (b1 s) (c1 s) (d1 s) in
  let k := if t <? 20 then 0x5a827999
           else if t <? 40 then 0x6ed9eba1
           else if t <? 60 then 0x8f1bbcdc
           else 0xca62c1d6 in
  let tmp := add32 (add32 (add32 (rotl 5 (a1 s)) f) (add32 (e1 s) k)) (snd tw) in
  mk1 tmp (a1 s) (rotl 30 (b1 s)) (c1 s) (d1 s).

Definition compress1 (s : state1) (block : list byte) : state1 :=
  let w := schedule next1 80 block in
  let r := fold_left round1 (combine (map Z.of_nat (seq 0 80)) w) s in
  mk1 (add32 (a1 s) (a1 r)) (add32 (b1 s) (b1 r)) (add32 (c1 s) (c1 r))
      (add32 (d1 s) (d1 r)) (add32 (e1 s) (e1 r)).

Definition sum1 (msg : list byte) : list byte :=
  let s := fold_left compress1 (blocks msg) init1 in
  be_bytes 4 (a1 s) ++ be_bytes 4 (b1 s) ++ be_bytes 4 (c1 s) ++ be_bytes 4 (d1 s)
    ++ be_bytes 4 (e1 s).

End Digest.

(** [[]byte(s)] for a string literal. *)
Definition bytes_of_string (s : string) : list byte := list_byte_of_string s.

(** ** Password scrambles *)

Definition sha1Hash (word : list byte) : list byte := Digest.sum1 word.
Definition sha256Hash (word : list byte) : list byte := Digest.sum256 word.

Definition xor_byte (x y : byte) : byte :=
  byte_of_Z (Z.lxor (byte_to_Z x) (byte_to_Z y)).

(** [for i := range p { p[i] ^= q[i] }]: indexing past the end of [q]
    panics. *)
Fixpoint xorInto (p q : list byte) : Res (list byte) :=
  match p, q with
  | [], _ => Val []
  | _ :: _, [] => Panic index_out_of_range
  | x :: p', y :: q' =>
      match xorInto p' q' with
      | Val r => Val (xor_byte x y :: r)
      | Panic e => Panic e
      end
  end.

(** The file [binlog/authentication.go]. *)
Module Authentication.

Definition nativeSha1Auth (salt password : list byte) : Res (list byte) :=
  let pHash := sha1Hash password in
  let pHashHash := sha1Hash pHash in
  let spHash := sha1Hash (salt ++ pHashHash) in
  xorInto pHash spHash.

Definition cachingSha2Auth (salt password : list byte) : Res (list byte) :=
  if len password <? 1 then Val []
  else
    let pHash := sha256Hash password in
    let pHashHash := sha256Hash pHash in
    let pHashHashHash := sha256Hash pHashHash in
    let authData := sha256Hash (pHashHashHash ++ salt) in
    xorInto pHash authData.

End Authentication.

(** The later revision of the same file, where both scrambles return early
    on an empty password. *)
Definition nativeSha1Auth (salt password : list byte) : Res (list byte) :=
  if len password <? 1 then Val []
  else
    let pHash := sha1Hash password in
    let pHashHash := sha1Hash pHash in
    let spHash := sha1Hash (salt ++ pHashHash) in
    xorInto pHash spHash.

Definition cachingSha2Auth (salt password : list byte) : Res (list byte) :=
  if len password <? 1 then Val []
  else
    let pHash := sha256Hash password in
    let pHashHash := sha256Hash pHash in
    let pHashHashHash := sha256Hash pHashHash in
    let authData := sha256Hash (pHashHashHash ++ salt) in
    xorInto pHash authData.

(** The scramble as the protocol description words it:
    [SHA256(password) XOR SHA256(SHA256(SHA256(password)) ++ salt)]. *)
Definition documentedSha2Scramble (salt password : list byte) : Res (list byte) :=
  xorInto (sha256Hash password)
          (sha256Hash (sha256Hash (sha256Hash password) ++ salt)).

Definition salt20 : list byte := map byte_of_Z
  [1; 2; 3; 4; 5; 6; 7; 8; 9; 10; 11; 12; 13; 14; 15; 16; 17; 18; 19; 20].

(** ** Sample connections *)

(** A fresh connection over a healthy transport that will deliver [bs] and
    then end cleanly. *)
Definition connOn (bs : list byte) : Conn :=
  newBinlogConn (mkScanner bs None) (mkWriter [] [] None None).

(** The same over a transport that breaks with a read error after [bs]. *)
Definition connBroken (bs : list byte) (e : error) : Conn :=
  newBinlogConn (mkScanner bs (Some e)) (mkWriter [] [] None None).

(** [n] flushes in a row, with the error each returned. *)
Fixpoint flushes (n : nat) : M (list (option error)) :=
  match n with
  | O => ret []
  | S n' => e <- Flush ;; r <- flushes n' ;; ret (e :: r)
  end.

(** ** Sequence IDs on the wire *)

(** The [N]th packet of a run, counting from 1. *)
Definition nthPacket (N : nat) (frames : list (list byte)) : option (list byte) :=
  match N with
  | O => None
  | S n => nth_error frames n
  end.

(** Every packet of the run carries the sequence ID that counting from [s0]
    gives it: the [N]th carries [(s0 + N - 1) mod 256]. *)
Definition SequenceIDsFrom (s0 : Z) (frames : list (list byte)) : Prop :=
  forall N frame,
    nthPacket N frames = Some frame ->
    frame_sequenceID frame = Some ((s0 + Z.of_nat N - 1) mod 256).

(** A connection that can flush: no held error, nothing stuck in the writer,
    a healthy transport. *)
Definition ready (c : Conn) : Prop :=
  err c = None /\ held (buffer c) = [] /\ werr (buffer c) = None
  /\ down (buffer c) = None.

(** Running [m] on [c] succeeds and delivers [count] more packets, numbered
    from [s0]. *)
Definition Delivers (m : M (option error)) (c : Conn) (count : nat) (s0 : Z) : Prop :=
  exists c' frames,
    m c = Val (None, c') /\
    sent (buffer c') = sent (buffer c) ++ frames /\
    length frames = count /\
    SequenceIDsFrom s0 frames.

(** ** Auxiliary notions for the statements *)

(** Byte-wise exclusive or over the common length. *)
Definition xorBytes (p q : list byte) : list byte :=
  map (fun xy => xor_byte (fst xy) (snd xy)) (combine p q).

(** What [decFixedInt] makes of the bytes [b] that [readBytes] hands it. *)
Definition fixedIntOf (l : Z) (b : list byte) : Z :=
  if l <=? 2 then uint64 (read_or_zero 2 (padBytes 2 b))
  else if l <=? 4 then uint64 (read_or_zero 4 (padBytes 4 b))
  else if l <=? 8 then read_or_zero 8 (padBytes 8 b)
  else 0.

(** The connection after [n] bytes have been taken off the transport. *)
Definition advanced (n : Z) (rest : list byte) (c : Conn) : Conn :=
  set_scanPos (uint64 (scanPos c + n))
    (set_scanner (mkScanner rest (fault (scanner c))) c).

(** The packet [Flush] builds from the accumulator [w] at counter [sID]. *)
Definition frameOf (sID : Z) (w : list byte) : list byte :=
  (le_bytes 3 (uint64 (len w)) ++ le_bytes 1 sID) ++ w.

(** The width [structToBitmask] picks for [k] fields. *)
Definition maskWidth (k : nat) : nat :=
  if (k <=? 8)%nat then 1 else if (k <=? 16)%nat then 2
  else if (k <=? 32)%nat then 4 else 8.

(** * The rest of the connection code *)

(** ** Strings on the wire *)

Definition TypeNullTerminatedString : Z := 0.
Definition TypeFixedString : Z := 1.
Definition TypeRestOfPacketString : Z := 4.
Definition TypeLenEncString : Z := 5.

Definition StatusOK : Z := 0x00.
Definition StatusEOF : Z := 0xFE.
Definition StatusErr : Z := 0xFF.
Definition StatusAuth : Z := 0x01.

Definition set_packetHeader (ph : option PacketHeader) (c : Conn) : Conn :=
  mkConn (scanner c) (buffer c) (err c) (sequenceID c) (writeBuf c) ph (scanPos c).

(** A connection whose transport will deliver [bs] next. *)
Definition feed (bs : list byte) (c : Conn) : Conn :=
  set_scanner (mkScanner bs (fault (scanner c))) c.

Definition out_of_fuel : error := "loop bound exceeded"%string.

(** The loop of [getBytesUntilNull]: [s] is the last one-byte read and [b]
    what has been gathered. It ends on a short read or on a null byte; every
    other round takes one byte off the transport, so [fuel] rounds are
    enough when the transport holds fewer than [fuel] bytes. *)
Fixpoint untilNullLoop (fuel : nat) (s b : list byte) : M (list byte) :=
  if negb (len s =? 1)
     || match s with x :: _ => Byte.eqb x NullByte | [] => false end
  then ret b
  else
    match fuel with
    | O => panic out_of_fuel
    | S fuel' =>
        s' <- readBytes 1 ;;
        untilNullLoop fuel' s' (b ++ s')
    end.

Definition getBytesUntilNull : M (list byte) :=
  s <- readBytes 1 ;;
  c <- get ;;
  untilNullLoop (S (length (pending (scanner c)))) s s.

Definition discardBytes (l : Z) : M unit :=
  readBytes l ;;; ret tt.

(** [strings.TrimRight(s, string(NullByte))]. *)
Fixpoint dropNulls (s : list byte) : list byte :=
  match s with
  | [] => []
  | x :: r => if Byte.eqb x NullByte then dropNulls r else s
  end.

Definition TrimRightNull (s : list byte) : list byte :=
  rev (dropNulls (rev s)).

Definition decNullTerminatedString : M (list byte) :=
  b <- getBytesUntilNull ;;
  ret (TrimRightNull b).

Definition decFixedString (l : Z) : M (list byte) :=
  readBytes l.

(** [(c.packetHeader.Length - 1) - c.scanPos] in 64-bit arithmetic; without
    a packet header the dereference panics. *)
Definition getRemainingBytes : M (list byte) :=
  c <- get ;;
  match packetHeader c with
  | None => panic nil_deref
  | Some ph => readBytes (uint64 (uint64 (Length ph - 1) - scanPos c))
  end.

Definition decRestOfPacketString : M (list byte) :=
  getRemainingBytes.

Definition getInt (t : Z) (l : Z) : M Z :=
  if t =? TypeFixedInt then decFixedInt l
  else if t =? TypeLenEncInt then decLenEncInt
  else ret 0.

(** [string(v)] for an integer [v]: the UTF-8 form of the code point, and of
    U+FFFD when [v] is none. *)
Definition runeString (v : Z) : list byte :=
  let cont (x : Z) := byte_of_Z (Z.lor 0x80 (Z.land x 0x3F)) in
  if v <? 0x80 then [byte_of_Z v]
  else if v <? 0x800 then [byte_of_Z (Z.lor 0xC0 (Z.shiftr v 6)); cont v]
  else if ((0xD800 <=? v) && (v <=? 0xDFFF)) || (0x10FFFF <? v) then
    [Byte.xef; Byte.xbf; Byte.xbd]
  else if v <? 0x10000 then
    [byte_of_Z (Z.lor 0xE0 (Z.shiftr v 12)); cont (Z.shiftr v 6); cont v]
  else
    [byte_of_Z (Z.lor 0xF0 (Z.shiftr v 18)); cont (Z.shiftr v 12);
     cont (Z.shiftr v 6); cont v].

Definition getString (t : Z) (l : Z) : M (list byte) :=
  if t =? TypeFixedString then decFixedString l
  else if t =? TypeLenEncString then v <- decLenEncInt ;; ret (runeString v)
  else if t =? TypeNullTerminatedString then decNullTerminatedString
  else if t =? TypeRestOfPacketString then decRestOfPacketString
  else ret [].

Definition encFixedString (v : list byte) : list byte := v.

Definition encNullTerminatedString (v : list byte) : list byte :=
  v ++ [NullByte].

Definition encRestOfPacketString (v : list byte) : list byte :=
  encFixedString v.

Definition encLenEncString (v : list byte) : list byte :=
  let l := uint64 (len v) in
  encLenEncInt l ++ encFixedString v.

(** Unlike the other [put] methods, [putString] does not set up the write
    buffer first. *)
Definition putString (t : Z) (v : list byte) : M Z :=
  b <- ret (if t =? TypeFixedString then encFixedString v
            else if t =? TypeLenEncString then encLenEncString v
            else if t =? TypeNullTerminatedString then encNullTerminatedString v
            else if t =? TypeRestOfPacketString then encRestOfPacketString v
            else []) ;;
  write_and_record b.

(** ** Packets *)

(** The header is kept and the scan position reset only when the scanner
    reports no error. *)
Definition getPacketHeader : M (PacketHeader * option error) :=
  l <- getInt TypeFixedInt 3 ;;
  sq <- getInt TypeFixedInt 1 ;;
  st <- getInt TypeFixedInt 1 ;;
  let ph := mkPacketHeader l sq st in
  c <- get ;;
  match Err (scanner c) with
  | Some e => ret (ph, Some e)
  | None =>
      modify (set_packetHeader (Some ph)) ;;;
      modify (set_scanPos 0) ;;;
      ret (ph, None)
  end.

Record ErrorPacket := mkErrorPacket {
  ep_PacketHeader : PacketHeader;
  ErrorCode : Z;
  ErrorMessage : list byte;
  SQLStateMarker : list byte;
  SQLState : list byte
}.

Definition decodeErrorPacket (ph : PacketHeader) : M (option ErrorPacket * option error) :=
  code <- getInt TypeFixedInt 2 ;;
  marker <- getString TypeFixedString 1 ;;
  state <- getString TypeFixedString 5 ;;
  msg <- getString TypeRestOfPacketString 0 ;;
  c <- get ;;
  match Err (scanner c) with
  | Some e => ret (None, Some e)
  | None => ret (Some (mkErrorPacket ph code msg marker state), None)
  end.

(** The fields of [c.HandshakeResponse.ClientFlag] that the packet code
    reads; the struct itself is declared elsewhere. *)
Record ClientFlag := mkClientFlag {
  Protocol41 : bool;
  Transactions : bool;
  SessionTrack : bool;
  PluginAuthLenEncClientData : bool;
  SecureConnection : bool
}.

Record OKPacket := mkOKPacket {
  op_PacketHeader : PacketHeader;
  Header : Z;
  AffectedRows : Z;
  LastInsertID : Z;
  StatusFlags : Z;
  Warnings : Z;
  Info : list byte;
  SessionStateInfo : list byte
}.

Definition decodeOKPacket (flags : ClientFlag) (ph : PacketHeader)
  : M (OKPacket * option error) :=
  affected <- getInt TypeLenEncInt 0 ;;
  lastID <- getInt TypeLenEncInt 0 ;;
  sw <- (if Protocol41 flags then
           sf <- getInt TypeFixedInt 2 ;;
           w <- getInt TypeFixedInt 1 ;;
           ret (sf, w)
         else if Transactions flags then
           sf <- getInt TypeFixedInt 2 ;;
           ret (sf, 0)
         else ret (0, 0)) ;;
  info <- (if SessionTrack flags then getString TypeRestOfPacketString 0
           else getString TypeRestOfPacketString 0) ;;
  ret (mkOKPacket ph (Status ph) affected lastID (fst sw) (snd sw) info [], None).

(** [decodeAuthResponsePacket]: the same in both revisions of the
    authentication file. *)
Record AuthResponsePacket := mkAuthResponsePacket {
  PacketLength : Z;
  ar_SequenceID : Z;
  ar_Status : Z;
  PluginName : list byte;
  AuthPluginData : list byte
}.

Definition decodeAuthResponsePacket : M (option AuthResponsePacket * option error) :=
  l <- getInt TypeFixedInt 3 ;;
  sq <- getInt TypeFixedInt 1 ;;
  st <- getInt TypeFixedInt 1 ;;
  name <- getString TypeNullTerminatedString 0 ;;
  data <- readBytes 20 ;;
  c <- get ;;
  match Err (scanner c) with
  | Some e => ret (None, Some e)
  | None => ret (Some (mkAuthResponsePacket l sq st name data), None)
  end.

(** A connection whose transport will deliver [bs] and then end cleanly. *)
Definition feedClean (bs : list byte) (c : Conn) : Conn :=
  set_scanner (mkScanner bs None) c.

(** What [readBytes] makes of a request for [n] bytes when the transport
    holds [p] and then ends with [flt]. *)
Definition readOutcome (n : nat) (p : list byte) (flt : option error) (c : Conn)
  : Res (list byte * Conn) :=
  match flt with
  | Some e =>
      if (length p <? n)%nat then Panic e
      else Val (firstn n p, advanced (len (firstn n p)) (skipn n p) c)
  | None => Val (firstn n p, advanced (len (firstn n p)) (skipn n p) c)
  end.

(** The connection once the header [ph] has been read and [body] is what
    the transport holds next, before a clean end. *)
Definition inPacket (ph : PacketHeader) (body : list byte) (c : Conn) : Conn :=
  set_scanPos 0 (set_packetHeader (Some ph) (feedClean body c)).

(** Read a header, then the rest of the packet. *)
Definition readFrame : M (PacketHeader * option error * list byte) :=
  h <- getPacketHeader ;;
  body <- decRestOfPacketString ;;
  ret (h, body).

(** The bytes an OK packet carries between the two length-encoded counts and
    the info string, as the negotiated flags have it. *)
Definition okStatusFields (flags : ClientFlag) (statusFlags : Z) (warnings : byte)
  : list byte :=
  if Protocol41 flags then le_bytes 2 statusFlags ++ [warnings]
  else if Transactions flags then le_bytes 2 statusFlags
  else [].

(** The bytes queued so far, none when the write buffer is still [nil]. *)
Definition accumulated (c : Conn) : list byte :=
  match writeBuf c with
  | Some w => w
  | None => []
  end.

(** [c'] differs from [c] at most in the write buffer, which has grown by
    [bytes]. *)
Definition queued (bytes : list byte) (c c' : Conn) : Prop :=
  c' = set_writeBuf (Some (accumulated c ++ bytes)) c.

(** The connection after a flush of the accumulator [w] that the transport
    refused with [e]: the framed packet stays in the accumulator and in the
    writer, and the counter has moved on. *)
Definition afterFailedFlush (e : error) (w : list byte) (c : Conn) : Conn :=
  set_buffer (mkWriter (held (buffer c) ++ frameOf (sequenceID c) w)
                       (sent (buffer c)) (Some e) (down (buffer c)))
    (set_writeBuf (Some (frameOf (sequenceID c) w))
       (set_sequenceID (uint64 (sequenceID c + 1)) c)).

(** ** Sending the password response (the later revision) *)

(** [s[:n]] for a slice [s] whose backing array goes on with [spare]: the
    bound is the capacity, not the length. *)
Definition reslice (n : nat) (s spare : list byte) : Res (list byte) :=
  if (n <=? length s + length spare)%nat then Val (firstn n (s ++ spare))
  else Panic "slice bounds out of range"%string.

(** The switch on [c.Handshake.AuthPluginName]: an unknown plugin leaves the
    response [nil]. *)
Definition pluginResponse (pluginName : string) (salt password : list byte)
  : Res (list byte) :=
  if String.eqb pluginName "mysql_native_password" then nativeSha1Auth salt password
  else if String.eqb pluginName "caching_sha2_password" then cachingSha2Auth salt password
  else Val [].

(** [authenticate(salt, password)]; the plugin name and the client flags are
    read from the handshake records, which are declared elsewhere, and the
    value stored into [AuthResponseLength] is returned. *)
Definition authenticate (pluginName : string) (flags : ClientFlag)
  (salt spare password : list byte) : M Z :=
  salt20' <- lift (reslice 20 salt spare) ;;
  ar <- lift (pluginResponse pluginName salt20' password) ;;
  let n := uint64 (len ar) in
  (if PluginAuthLenEncClientData flags then
     putInt TypeLenEncInt n 0 ;;; putBytes ar
   else if SecureConnection flags then
     putInt TypeFixedInt n 1 ;;; putBytes ar
   else putString TypeNullTerminatedString ar) ;;;
  ret n.

Definition writeAuthSwitchPacket (pluginName : string) (flags : ClientFlag)
  (salt spare password : list byte) : M (option error) :=
  authenticate pluginName flags salt spare password ;;;
  e <- Flush ;;
  match e with
  | Some _ => Flush
  | None => ret None
  end.

(** ** The auth continuation packet (the later revision) *)

Record AuthMoreDataPacket := mkAuthMoreDataPacket {
  amd_PacketHeader : PacketHeader;
  Data : string
}.

Definition SHA2_REQUEST_PUBLIC_KEY : Z := 0x02.
Definition SHA2_FAST_AUTH_SUCCESS : Z := 0x03.
Definition SHA2_PERFORM_FULL_AUTHENTICATION : Z := 0x04.

Definition decodeAuthMoreDataResponsePacket (ph : PacketHeader)
  : M (option AuthMoreDataPacket * option error) :=
  flag <- getInt TypeFixedInt 1 ;;
  let data :=
    if flag =? SHA2_FAST_AUTH_SUCCESS then "SHA2_FAST_AUTH_SUCCESS"%string
    else if flag =? SHA2_REQUEST_PUBLIC_KEY then "SHA2_REQUEST_PUBLIC_KEY"%string
    else if flag =? SHA2_PERFORM_FULL_AUTHENTICATION
         then "SHA2_PERFORM_FULL_AUTHENTICATION"%string
    else ""%string in
  c <- get ;;
  match Err (scanner c) with
  | Some e => ret (None, Some e)
  | None => ret (Some (mkAuthMoreDataPacket ph data), None)
  end.

(** ** The packet dispatcher *)

(** What [readPacket] returns as its [interface{}]. *)
Inductive Packet : Type :=
| NoPacket
| AnOKPacket (p : OKPacket)
| AnErrorPacket (p : ErrorPacket).

(** [fmt.Errorf("error %d: %s", code, message)]. *)
Definition errorf (code : Z) (message : list byte) : error :=
  ("error " ++ NilEmpty.string_of_uint (N.to_uint (Z.to_N code)) ++ ": "
   ++ string_of_list_byte message)%string.

Section Dispatcher.

(** The revision of the continuation decoder that [readPacket] calls, with
    the three values it compares [Data] to, lives outside these files: they
    are parameters here, as are the password of the configuration and the
    negotiated client flags. *)
Variable AuthData : Type.
Variable AuthData_eqb : AuthData -> AuthData -> bool.
Variables Sha2FastAuthSuccess Sha2RequestPublicKey
          Sha2PerformFullAuthentication : AuthData.
Variable decodeAuthMoreData : PacketHeader -> M (AuthData * option error).
Variable Pass : list byte.
Variable flags : ClientFlag.

(** In the continuation case the decoded packet is bound to a variable of
    the inner scope, so nothing of it reaches the result. *)
Definition readPacket : M (Packet * option error) :=
  h <- getPacketHeader ;;
  let ph := fst h in
  match snd h with
  | Some e => ret (NoPacket, Some e)
  | None =>
      let finish (res : Packet) : M (Packet * option error) :=
        c <- get ;;
        match Err (scanner c) with
        | Some e => ret (NoPacket, Some e)
        | None => ret (res, None)
        end in
      if Status ph =? StatusAuth then
        r <- decodeAuthMoreData ph ;;
        match snd r with
        | Some e => ret (NoPacket, Some e)
        | None =>
            if AuthData_eqb (fst r) Sha2FastAuthSuccess then finish NoPacket
            else if AuthData_eqb (fst r) Sha2RequestPublicKey then finish NoPacket
            else if AuthData_eqb (fst r) Sha2PerformFullAuthentication then
              putBytes (Pass ++ [NullByte]) ;;;
              e1 <- Flush ;;
              match e1 with
              | Some _ => e2 <- Flush ;; ret (NoPacket, e2)
              | None => finish NoPacket
              end
            else finish NoPacket
        end
      else if (Status ph =? StatusEOF) || (Status ph =? StatusOK) then
        r <- decodeOKPacket flags ph ;;
        match snd r with
        | Some e => ret (NoPacket, Some e)
        | None => finish (AnOKPacket (fst r))
        end
      else if Status ph =? StatusErr then
        r <- decodeErrorPacket ph ;;
        match r with
        | (Some ep, None) =>
            ret (AnErrorPacket ep, Some (errorf (ErrorCode ep) (ErrorMessage ep)))
        | (_, Some e) => ret (NoPacket, Some e)
        | (None, None) => panic nil_deref
        end
      else finish NoPacket
  end.

End Dispatcher.

(** The connection after a successful flush of the accumulator [w]. *)
Definition afterFlush (w : list byte) (c : Conn) : Conn :=
  set_writeBuf None
    (set_buffer (mkWriter [] (sent (buffer c) ++ [frameOf (sequenceID c) w]) None None)
       (set_sequenceID (uint64 (sequenceID c + 1)) c)).

(** * Properties *)

(** ** Bytes and little-endian values *)

Lemma byte_to_Z_range (b : byte) : 0 <= byte_to_Z b < 256.
Proof.
  unfold byte_to_Z. pose proof (Byte.to_N_bounded b). lia.
Qed.

Lemma byte_to_of_Z (z : Z) : byte_to_Z (byte_of_Z z) = z mod 256.
Proof.
  assert (Hr : 0 <= z mod 256 < 256) by (apply Z.mod_pos_bound; lia).
  unfold byte_to_Z, byte_of_Z.
  destruct (Byte.of_N (Z.to_N (z mod 256))) as [b|] eqn:E.
  - apply Byte.to_of_N in E. rewrite E. rewrite Z2N.id; lia.
  - apply Byte.of_N_None_iff in E. lia.
Qed.

Lemma byte_of_to_Z (b : byte) : byte_of_Z (byte_to_Z b) = b.
Proof.
  unfold byte_of_Z. rewrite Z.mod_small by apply byte_to_Z_range.
  unfold byte_to_Z. rewrite N2Z.id, Byte.of_to_N. reflexivity.
Qed.

Lemma length_le_bytes (k : nat) : forall v, length (le_bytes k v) = k.
Proof.
  induction k as [|k IH]; intros v; simpl; [reflexivity | now rewrite IH].
Qed.

Lemma firstn_le_bytes (k : nat) :
  forall n v, (k <= n)%nat -> firstn k (le_bytes n v) = le_bytes k v.
Proof.
  induction k as [|k IH]; intros n v Hkn; [reflexivity|].
  destruct n as [|n]; [lia|].
  simpl. f_equal. apply IH. lia.
Qed.

Lemma le_value_nonneg (bs : list byte) : 0 <= le_value bs.
Proof.
  induction bs as [|b r IH]; cbn [le_value]; [lia|].
  apply Z.lor_nonneg. split.
  - apply byte_to_Z_range.
  - apply Z.shiftl_nonneg. exact IH.
Qed.

(** Bit [i] of a little-endian string is bit [i mod 8] of byte [i / 8]. *)
Lemma le_value_cons_bits (b : byte) (r : list byte) (i : Z) :
  0 <= i ->
  Z.testbit (le_value (b :: r)) i =
  if i <? 8 then Z.testbit (byte_to_Z b) i else Z.testbit (le_value r) (i - 8).
Proof.
  intros Hi. cbn [le_value]. rewrite Z.lor_spec, Z.shiftl_spec by lia.
  destruct (Z.ltb_spec i 8) as [Hlt|Hge].
  - rewrite (Z.testbit_neg_r _ (i - 8)) by lia. apply orb_false_r.
  - replace (byte_to_Z b) with (byte_to_Z b mod 2 ^ 8)
      by (apply Z.mod_small; apply byte_to_Z_range).
    rewrite Z.mod_pow2_bits_high by lia. reflexivity.
Qed.

Lemma le_value_le_bytes (k : nat) :
  forall v, le_value (le_bytes k v) = v mod 2 ^ (8 * Z.of_nat k).
Proof.
  induction k as [|k IH]; intros v.
  - cbn [le_bytes le_value]. now rewrite Z.mod_1_r.
  - apply Z.bits_inj'. intros i Hi.
    cbn [le_bytes]. rewrite le_value_cons_bits by exact Hi.
    rewrite IH, byte_to_of_Z.
    change 256 with (2 ^ 8).
    rewrite !Z.testbit_mod_pow2 by lia.
    destruct (Z.ltb_spec i 8) as [Hlt|Hge].
    + replace (i <? 8 * Z.of_nat (S k)) with true
        by (symmetry; apply Z.ltb_lt; lia).
      reflexivity.
    + rewrite Z.shiftr_spec by lia.
      replace (i - 8 + 8) with i by lia.
      f_equal. apply eq_iff_eq_true. rewrite !Z.ltb_lt. lia.
Qed.

Lemma le_value_app_zeros (bs : list byte) (n : nat) :
  le_value (bs ++ repeat NullByte n) = le_value bs.
Proof.
  induction bs as [|b r IH]; cbn [app le_value].
  - induction n as [|n IHn]; cbn [repeat le_value]; [reflexivity|].
    rewrite IHn. reflexivity.
  - now rewrite IH.
Qed.

Lemma le_value_bound (bs : list byte) : le_value bs < 2 ^ (8 * len bs).
Proof.
  unfold len. induction bs as [|b r IH]; [cbn; lia|].
  pose proof (le_value_nonneg (b :: r)) as Hnn.
  destruct (Z.eq_dec (le_value (b :: r)) 0) as [E|E].
  - rewrite E. apply Z.pow_pos_nonneg; lia.
  - apply Z.log2_lt_pow2; [lia|].
    (* every bit from position [8 * length] on is clear *)
    destruct (Z.lt_ge_cases (Z.log2 (le_value (b :: r))) (8 * Z.of_nat (length (b :: r))))
      as [Hlt|Hge]; [exact Hlt|exfalso].
    pose proof (Z.bit_log2 (le_value (b :: r)) ltac:(lia)) as Hbit.
    rewrite le_value_cons_bits in Hbit by (apply Z.log2_nonneg).
    change (length (b :: r)) with (S (length r)) in Hge.
    destruct (Z.ltb_spec (Z.log2 (le_value (b :: r))) 8) as [H8|H8]; [lia|].
    pose proof (le_value_nonneg r) as Hr.
    rewrite <- (Z.mod_small (le_value r) (2 ^ (8 * Z.of_nat (length r)))) in Hbit
      by (split; [exact Hr | exact IH]).
    rewrite Z.mod_pow2_bits_high in Hbit by lia. discriminate.
Qed.

(** ** Reading a run of bytes *)

Lemma readLoop_app (bs : list byte) :
  forall rest flt acc,
    readLoop (length bs) (mkScanner (bs ++ rest) flt) acc
    = Val (acc ++ bs, mkScanner rest flt).
Proof.
  induction bs as [|b r IH]; intros rest flt acc.
  - cbn. now rewrite app_nil_r.
  - cbn. rewrite IH, <- app_assoc. reflexivity.
Qed.

(** Once the transport is drained without an error the loop only idles. *)
Lemma readLoop_drained (n : nat) :
  forall acc, readLoop n (mkScanner [] None) acc = Val (acc, mkScanner [] None).
Proof.
  induction n as [|n IH]; intros acc; cbn; [reflexivity | apply IH].
Qed.

Lemma readLoop_faulted (n : nat) (e : error) :
  forall acc, readLoop (S n) (mkScanner [] (Some e)) acc = Panic e.
Proof. reflexivity. Qed.

Lemma readLoop_short_eof (bs : list byte) (n : nat) :
  forall acc,
    readLoop (length bs + n) (mkScanner bs None) acc
    = Val (acc ++ bs, mkScanner [] None).
Proof.
  induction bs as [|b r IH]; intros acc.
  - cbn [length Nat.add]. rewrite readLoop_drained, app_nil_r. reflexivity.
  - cbn. rewrite IH, <- app_assoc. reflexivity.
Qed.

Lemma readLoop_short_fault (bs : list byte) (n : nat) (e : error) :
  forall acc,
    readLoop (length bs + S n) (mkScanner bs (Some e)) acc = Panic e.
Proof.
  induction bs as [|b r IH]; intros acc.
  - reflexivity.
  - cbn. apply IH.
Qed.

Lemma read_or_zero_padBytes (k : nat) (b : list byte) :
  (length b <= k)%nat ->
  read_or_zero k (padBytes (Z.of_nat k) b) = le_value b.
Proof.
  intros Hk. unfold read_or_zero, binary_Read, Uint, padBytes, len.
  replace (Z.to_nat (Z.of_nat k - Z.of_nat (length b))) with (k - length b)%nat by lia.
  assert (Hlen : length (b ++ repeat NullByte (k - length b)) = k)
    by (rewrite length_app, repeat_length; lia).
  rewrite Hlen, Nat.ltb_irrefl.
  rewrite <- Hlen at 1. rewrite firstn_all.
  apply le_value_app_zeros.
Qed.

Lemma fixedIntOf_le_value (l : Z) (b : list byte) :
  0 <= l <= 8 -> len b <= l -> fixedIntOf l b = le_value b.
Proof.
  intros Hl Hb. unfold fixedIntOf, len in *.
  pose proof (le_value_nonneg b) as Hnn.
  pose proof (le_value_bound b) as Hub. unfold len in Hub.
  assert (Hmono : forall k, Z.of_nat (length b) <= k -> le_value b < 2 ^ (8 * k)).
  { intros k Hk. eapply Z.lt_le_trans; [exact Hub|].
    apply Z.pow_le_mono_r; lia. }
  destruct (Z.leb_spec l 2); [|destruct (Z.leb_spec l 4); [|destruct (Z.leb_spec l 8)]].
  - rewrite (read_or_zero_padBytes 2) by lia.
    unfold uint64, uint. apply Z.mod_small.
    specialize (Hmono 2 ltac:(lia)). change (2 ^ (8 * 2)) with 65536 in Hmono.
    change (2 ^ 64) with 18446744073709551616. lia.
  - rewrite (read_or_zero_padBytes 4) by lia.
    unfold uint64, uint. apply Z.mod_small.
    specialize (Hmono 4 ltac:(lia)). change (2 ^ (8 * 4)) with 4294967296 in Hmono.
    change (2 ^ 64) with 18446744073709551616. lia.
  - apply (read_or_zero_padBytes 8). lia.
  - lia.
Qed.

Lemma decFixedInt_unfold (l : Z) (c : Conn) :
  decFixedInt l c =
  match readBytes l c with
  | Val (b, c') => Val (fixedIntOf l b, c')
  | Panic e => Panic e
  end.
Proof.
  unfold decFixedInt, bind, ret, fixedIntOf.
  destruct (readBytes l c) as [[b c']|e]; reflexivity.
Qed.

Lemma readBytes_prefix (bs rest : list byte) (c : Conn) :
  pending (scanner c) = bs ++ rest ->
  readBytes (len bs) c = Val (bs, advanced (len bs) rest c).
Proof.
  intros Hp. unfold readBytes, len. rewrite Nat2Z.id.
  destruct c as [[p f] w e s wb ph sp]. cbn in Hp. subst p. cbn [scanner].
  rewrite readLoop_app. reflexivity.
Qed.

Lemma encFixedLenInt_le_bytes (v : Z) (n : nat) :
  (n <= 8)%nat -> encFixedLenInt v (Z.of_nat n) = Val (le_bytes n v).
Proof.
  intros Hn. unfold encFixedLenInt.
  destruct (Z.leb_spec (Z.of_nat n) 8); [|lia].
  rewrite Nat2Z.id. unfold PutUint64, PutUint, make.
  cbn [repeat skipn]. rewrite app_nil_r.
  now rewrite firstn_le_bytes.
Qed.

Lemma decFixedInt_roundtrip (v : Z) (n : nat) (rest : list byte) (c : Conn) :
  (n <= 8)%nat ->
  pending (scanner c) = le_bytes n v ++ rest ->
  decFixedInt (Z.of_nat n) c
  = Val (v mod 2 ^ (8 * Z.of_nat n), advanced (Z.of_nat n) rest c).
Proof.
  intros Hn Hp. rewrite decFixedInt_unfold.
  pose proof (readBytes_prefix _ _ _ Hp) as Hr.
  unfold len in Hr. rewrite length_le_bytes in Hr. rewrite Hr.
  rewrite fixedIntOf_le_value.
  - now rewrite le_value_le_bytes.
  - lia.
  - unfold len. rewrite length_le_bytes. lia.
Qed.

(** ** Fixed-length integers *)

(** C6: for every value [v] and every width [n] in 1, 2, 3, 4, 8,
    [encFixedLenInt v n] returns [n] bytes, and [decFixedInt n] run on a
    transport that delivers those bytes (followed by anything) returns
    [v mod 2^(8n)], having consumed exactly those bytes. *)
Theorem decFixedInt_encFixedLenInt (v n : Z) :
  In n [1; 2; 3; 4; 8] ->
  exists bs,
    encFixedLenInt v n = Val bs /\
    len bs = n /\
    forall rest c,
      pending (scanner c) = bs ++ rest ->
      decFixedInt n c = Val (v mod 2 ^ (8 * n), advanced n rest c).
Proof.
  intros Hn.
  assert (Hk : exists k, n = Z.of_nat k /\ (k <= 8)%nat).
  { cbn in Hn.
    destruct Hn as [<-|[<-|[<-|[<-|[<-|[]]]]]];
      [exists 1%nat|exists 2%nat|exists 3%nat|exists 4%nat|exists 8%nat];
      split; (reflexivity || lia). }
  destruct Hk as [k [-> Hk]].
  exists (le_bytes k v). split; [|split].
  - now apply encFixedLenInt_le_bytes.
  - unfold len. now rewrite length_le_bytes.
  - intros rest c Hp. now apply decFixedInt_roundtrip.
Qed.

Lemma decFixedInt_encFixedLenInt_witness :
  In 3 [1; 2; 3; 4; 8] /\
  exists bs,
    encFixedLenInt 0x12345678 3 = Val bs /\
    len bs = 3 /\
    forall rest c,
      pending (scanner c) = bs ++ rest ->
      decFixedInt 3 c = Val (0x12345678 mod 2 ^ (8 * 3), advanced 3 rest c).
Proof.
  split; [simpl; tauto | apply (decFixedInt_encFixedLenInt 0x12345678 3); simpl; tauto].
Defined.

(** ** Length-encoded integers *)

(** C1: whatever the prefix byte is, [decLenEncInt] consumes it and returns
    0: the two-byte read of the one-byte prefix fails and leaves the width
    at zero, so no follow-up bytes are read and the prefix is never
    inspected. *)
Theorem decLenEncInt_ignores_prefix (b : byte) (rest : list byte) (c : Conn) :
  pending (scanner c) = b :: rest ->
  decLenEncInt c = Val (0, advanced 1 rest c).
Proof.
  intros Hp. unfold decLenEncInt, bind.
  change (b :: rest) with ([b] ++ rest) in Hp.
  pose proof (readBytes_prefix _ _ _ Hp) as Hr.
  change (len [b]) with 1 in Hr. rewrite Hr. reflexivity.
Qed.

Lemma decLenEncInt_ignores_prefix_witness :
  pending (scanner (connOn [Byte.xfc; Byte.xfb; Byte.x00]))
    = Byte.xfc :: [Byte.xfb; Byte.x00] /\
  decLenEncInt (connOn [Byte.xfc; Byte.xfb; Byte.x00])
    = Val (0, advanced 1 [Byte.xfb; Byte.x00] (connOn [Byte.xfc; Byte.xfb; Byte.x00])).
Proof.
  split; [reflexivity | apply (decLenEncInt_ignores_prefix Byte.xfc); reflexivity].
Defined.

(** C2: the encoder at the documented boundaries. 250 is the single byte
    [0xFA], but 251 is the single byte [0xFB] (the one-byte range ends at
    255, not at 251), 65535 already takes the [0xFD] form, the [0xFE] form
    carries nine bytes after the prefix, and decoding what was encoded
    gives 0. *)
Theorem encLenEncInt_boundaries :
  encLenEncInt 250 = [Byte.xfa] /\
  encLenEncInt 251 = [Byte.xfb] /\
  encLenEncInt 254 = [Byte.xfe] /\
  encLenEncInt 255 = [Byte.xfc; Byte.xff; Byte.x00] /\
  encLenEncInt 65535 = [Byte.xfd; Byte.xff; Byte.xff; Byte.x00] /\
  encLenEncInt 65536 = [Byte.xfd; Byte.x00; Byte.x00; Byte.x01] /\
  encLenEncInt 16777216
    = [Byte.xfe; Byte.x00; Byte.x00; Byte.x00; Byte.x01;
       Byte.x00; Byte.x00; Byte.x00; Byte.x00; Byte.x00] /\
  decLenEncInt (connOn (encLenEncInt 250)) = Val (0, advanced 1 [] (connOn [Byte.xfa])) /\
  decLenEncInt (connOn (encLenEncInt 65536))
    = Val (0, advanced 1 [Byte.x00; Byte.x00; Byte.x01] (connOn (encLenEncInt 65536))).
Proof.
  repeat split; vm_compute; reflexivity.
Qed.

(** C10: for the largest 64-bit value no case of [encLenEncInt] applies and
    the result is empty. *)
Theorem encLenEncInt_MaxUint64 : encLenEncInt MaxUint64 = [].
Proof. vm_compute. reflexivity. Qed.

(** ** Short reads *)

(** C9: when the transport holds fewer bytes than [decFixedInt n] asks for,
    the outcome depends on how the transport ended: after a read error the
    decode panics with it, but after a clean end of stream it returns the
    little-endian value of the bytes it did get, zero-extended. *)
Theorem decFixedInt_short_read (n : Z) (bs : list byte) (c : Conn) :
  pending (scanner c) = bs ->
  len bs < n <= 8 ->
  (fault (scanner c) = None ->
   decFixedInt n c = Val (le_value bs, advanced (len bs) [] c)) /\
  (forall e, fault (scanner c) = Some e -> decFixedInt n c = Panic e).
Proof.
  intros Hp Hn.
  destruct c as [[p f] w e0 s wb ph sp]. cbn in Hp. subst p.
  assert (Hk : Z.to_nat n = (length bs + S (Z.to_nat n - length bs - 1))%nat)
    by (unfold len in Hn; lia).
  split.
  - cbn [scanner fault]. intros ->.
    rewrite decFixedInt_unfold. unfold readBytes. cbn [scanner].
    rewrite Hk, readLoop_short_eof. cbn [app].
    rewrite fixedIntOf_le_value by lia. reflexivity.
  - cbn [scanner fault]. intros e ->.
    rewrite decFixedInt_unfold. unfold readBytes. cbn [scanner].
    rewrite Hk, readLoop_short_fault. reflexivity.
Qed.

Lemma decFixedInt_short_read_witness :
  pending (scanner (connOn [Byte.x05])) = [Byte.x05] /\
  len [Byte.x05] < 2 <= 8 /\
  decFixedInt 2 (connOn [Byte.x05]) = Val (5, advanced 1 [] (connOn [Byte.x05])).
Proof.
  split; [reflexivity|]. split; [cbv; split; [reflexivity | discriminate]|].
  apply (decFixedInt_short_read 2 [Byte.x05] (connOn [Byte.x05]));
    [reflexivity | cbv; split; [reflexivity | discriminate] | reflexivity].
Defined.

(** The same short read over a transport that broke instead of ending. *)
Example decFixedInt_short_read_broken :
  decFixedInt 2 (connBroken [Byte.x05] "i/o timeout"%string) = Panic "i/o timeout"%string.
Proof. reflexivity. Qed.

(** ** Flushing *)

(** C5: with an error held in the connection, [Flush] returns that error and
    leaves the whole connection as it was: nothing reaches the transport and
    the accumulator and the sequence counter keep their values; so does any
    number of further flushes. *)
Theorem Flush_held_error (c : Conn) (e : error) :
  err c = Some e ->
  Flush c = Val (Some e, c) /\
  forall n, flushes n c = Val (repeat (Some e) n, c).
Proof.
  intros He.
  assert (H1 : Flush c = Val (Some e, c)).
  { unfold Flush, bind, get. rewrite He. reflexivity. }
  split; [exact H1|].
  induction n as [|n IH]; [reflexivity|].
  cbn [flushes repeat]. unfold bind at 1. rewrite H1.
  unfold bind. rewrite IH. reflexivity.
Qed.

Lemma Flush_held_error_witness :
  err (set_err (Some "write failed"%string) (connOn [])) = Some "write failed"%string /\
  Flush (set_err (Some "write failed"%string) (connOn []))
  = Val (Some "write failed"%string, set_err (Some "write failed"%string) (connOn [])).
Proof.
  split; [reflexivity|].
  apply (Flush_held_error (set_err (Some "write failed"%string) (connOn []))).
  reflexivity.
Defined.

(** ** The sequence counter *)

Lemma frame_sequenceID_frameOf (sID : Z) (w : list byte) :
  frame_sequenceID (frameOf sID w) = Some (sID mod 256).
Proof.
  unfold frame_sequenceID, frameOf. cbn [le_bytes app nth_error option_map].
  now rewrite byte_to_of_Z.
Qed.

Lemma uint64_mod_256 (a : Z) : uint64 a mod 256 = a mod 256.
Proof.
  unfold uint64, uint. apply Z.mod_mod_divide.
  exists (2 ^ 56). reflexivity.
Qed.

Lemma sendPacket_ready (p : list byte) (c : Conn) :
  ready c ->
  exists c',
    sendPacket p c = Val (None, c') /\
    ready c' /\
    sequenceID c' = uint64 (sequenceID c + 1) /\
    writeBuf c' = None /\
    sent (buffer c')
    = sent (buffer c)
        ++ [frameOf (sequenceID c)
              (match writeBuf c with Some w => w | None => [] end ++ p)].
Proof.
  intros (He & Hh & Hw & Hd).
  destruct c as [sc [h st we dn] e s wb ph sp]. cbn in He, Hh, Hw, Hd. subst.
  destruct wb as [w|]; eexists; (split; [reflexivity|]);
    unfold ready; cbn; repeat split; reflexivity.
Qed.

Lemma SequenceIDsFrom_cons (s0 : Z) (frame : list byte) (frames : list (list byte)) :
  frame_sequenceID frame = Some (s0 mod 256) ->
  SequenceIDsFrom (uint64 (s0 + 1)) frames ->
  SequenceIDsFrom s0 (frame :: frames).
Proof.
  intros Hhd Htl N f HN. destruct N as [|[|n]]; cbn in HN.
  - discriminate.
  - injection HN as <-. rewrite Hhd. f_equal. f_equal. lia.
  - rewrite (Htl (S n) f HN). f_equal.
    rewrite Zminus_mod, Zplus_mod, uint64_mod_256.
    rewrite <- Zplus_mod, <- Zminus_mod. f_equal. lia.
Qed.

Lemma sendPackets_ready (payloads : list (list byte)) :
  forall c, ready c -> Delivers (sendPackets payloads) c (length payloads) (sequenceID c).
Proof.
  induction payloads as [|p rest IH]; intros c Hc.
  - exists c, []. repeat split; try reflexivity.
    + now rewrite app_nil_r.
    + intros [|[|n]] f HN; discriminate.
  - destruct (sendPacket_ready p c Hc) as (c1 & Hrun & Hc1 & Hs & _ & Hsent).
    destruct (IH c1 Hc1) as (c2 & frames & Hrun2 & Hsent2 & Hlen & Hids).
    exists c2, (frameOf (sequenceID c)
                  (match writeBuf c with Some w => w | None => [] end ++ p) :: frames).
    repeat split.
    + cbn [sendPackets]. unfold bind at 1. rewrite Hrun. exact Hrun2.
    + rewrite Hsent2, Hsent, <- app_assoc. reflexivity.
    + cbn [length]. now rewrite Hlen.
    + apply SequenceIDsFrom_cons.
      * apply frame_sequenceID_frameOf.
      * rewrite <- Hs. exact Hids.
Qed.

(** C4, as the code has it: packets flushed in a row from a connection whose
    counter holds [s] carry [s], [s + 1], ... truncated to one byte, the
    [N]th carrying [(s + N - 1) mod 256]. A new connection starts its
    counter at 1, so its [N]th packet carries [N mod 256]; after the counter
    is reset to 0 the [N]th packet carries [(N - 1) mod 256], the first
    one 0. *)
Theorem sequenceID_of_nth_packet (payloads : list (list byte)) (c : Conn) :
  ready c ->
  Delivers (sendPackets payloads) c (length payloads) (sequenceID c) /\
  Delivers (resetSequenceID ;;; sendPackets payloads) c (length payloads) 0 /\
  forall transport,
    Delivers (sendPackets payloads)
             (newBinlogConn transport (mkWriter [] [] None None))
             (length payloads) 1.
Proof.
  intros Hc. split; [|split].
  - now apply sendPackets_ready.
  - assert (Hr : ready (set_sequenceID 0 c)) by exact Hc.
    destruct (sendPackets_ready payloads _ Hr) as (c' & frames & H1 & H2 & H3 & H4).
    exists c', frames. repeat split; assumption.
  - intros transport. apply (sendPackets_ready payloads (newBinlogConn transport _)).
    unfold ready. cbn. repeat split; reflexivity.
Qed.

Lemma sequenceID_of_nth_packet_witness :
  ready (connOn []) /\
  Delivers (resetSequenceID ;;; sendPackets [[Byte.x01]; [Byte.x02]]) (connOn []) 2 0.
Proof.
  assert (Hc : ready (connOn [])) by (repeat split).
  split; [exact Hc|].
  exact (proj1 (proj2 (sequenceID_of_nth_packet [[Byte.x01]; [Byte.x02]] (connOn []) Hc))).
Defined.

(** C4 as stated fails on a new connection: its first packet carries
    sequence ID 1, not 0. *)
Lemma first_packet_of_new_connection :
  exists c',
    sendPackets [[Byte.x2a]] (connOn []) = Val (None, c') /\
    sent (buffer c')
    = [[Byte.x01; Byte.x00; Byte.x00; Byte.x01; Byte.x2a]] /\
    ~ SequenceIDsFrom 0 (sent (buffer c')).
Proof.
  eexists. split; [reflexivity|]. split; [reflexivity|].
  intros H. specialize (H 1%nat _ eq_refl). vm_compute in H. discriminate.
Qed.

(** ** Capability bitmasks *)

Lemma land_flag (x i : Z) :
  0 <= i -> (0 <? Z.land x (2 ^ i)) = Z.testbit x i.
Proof.
  intros Hi.
  assert (E : Z.land x (2 ^ i) = if Z.testbit x i then 2 ^ i else 0).
  { apply Z.bits_inj'. intros n Hn.
    rewrite Z.land_spec, Z.pow2_bits_eqb by exact Hi.
    destruct (Z.eqb_spec i n) as [->|Hne].
    - destruct (Z.testbit x n); [now rewrite Z.pow2_bits_true | now rewrite Z.bits_0].
    - rewrite andb_false_r.
      destruct (Z.testbit x i); [now rewrite Z.pow2_bits_false | now rewrite Z.bits_0]. }
  rewrite E. destruct (Z.testbit x i).
  - apply Z.ltb_lt. apply Z.pow_pos_nonneg; lia.
  - reflexivity.
Qed.

(** The flag [1 << i] survives the conversion to a type of [w] bits when
    [i < w]. *)
Lemma uint_flag (w i : Z) : 0 <= i < w -> uint w (Z.shiftl 1 i) = 2 ^ i.
Proof.
  intros Hi. unfold uint. rewrite Z.shiftl_1_l.
  apply Z.mod_small. split.
  - apply Z.pow_nonneg. lia.
  - apply Z.pow_lt_mono_r; lia.
Qed.

Lemma maskLoop_bits (s : list bool) :
  forall i m j,
    0 <= i -> i + len s <= 64 -> 0 <= j ->
    Z.testbit (maskLoop i s m) j
    = Z.testbit m j || ((i <=? j) && nth (Z.to_nat (j - i)) s false).
Proof.
  unfold len.
  induction s as [|v r IH]; intros i m j Hi Hlen Hj.
  - cbn [maskLoop]. destruct (Z.to_nat (j - i)); cbn [nth];
      now rewrite andb_false_r, orb_false_r.
  - cbn [maskLoop]. cbn [length] in Hlen.
    rewrite IH by lia.
    assert (Hm : Z.testbit (if v then Z.lor m (uint64 (Z.shiftl 1 i)) else m) j
                 = Z.testbit m j || (v && (i =? j))).
    { destruct v.
      - unfold uint64. rewrite Z.lor_spec, uint_flag by lia.
        now rewrite Z.pow2_bits_eqb by lia.
      - now rewrite orb_false_r. }
    rewrite Hm, <- orb_assoc. f_equal.
    destruct (Z.eqb_spec i j) as [->|Hne].
    + replace (j + 1 <=? j) with false by (symmetry; apply Z.leb_gt; lia).
      rewrite Z.leb_refl, Z.sub_diag. cbn [Z.to_nat nth andb].
      now rewrite andb_true_r, orb_false_r.
    + rewrite andb_false_r, orb_false_l.
      destruct (Z.leb_spec (i + 1) j) as [Hle|Hgt].
      * replace (i <=? j) with true by (symmetry; apply Z.leb_le; lia).
        replace (Z.to_nat (j - i)) with (S (Z.to_nat (j - (i + 1)))) by lia.
        reflexivity.
      * replace (i <=? j) with false by (symmetry; apply Z.leb_gt; lia).
        reflexivity.
Qed.

(** Bit [j] of the mask [structToBitmask] builds is field [j]. *)
Lemma mask_bits (s : list bool) (j : nat) :
  len s <= 64 ->
  Z.testbit (maskLoop 0 s 0) (Z.of_nat j) = nth j s false.
Proof.
  intros Hs. rewrite maskLoop_bits by lia.
  rewrite Z.bits_0, Z.sub_0_r, Nat2Z.id.
  replace (0 <=? Z.of_nat j) with true by (symmetry; apply Z.leb_le; lia).
  reflexivity.
Qed.

Lemma firstn_PutUint64 (k : nat) (m : Z) :
  (k <= 8)%nat -> firstn k (PutUint64 (make 8) m) = le_bytes k m.
Proof.
  intros Hk. unfold PutUint64, PutUint, make.
  cbn [repeat skipn]. rewrite app_nil_r. now apply firstn_le_bytes.
Qed.

Lemma Uint_le_bytes (k : nat) (m : Z) :
  Uint k (le_bytes k m) = Some (m mod 2 ^ (8 * Z.of_nat k)).
Proof.
  unfold Uint. rewrite length_le_bytes, Nat.ltb_irrefl.
  rewrite <- (length_le_bytes k m) at 1. rewrite firstn_all.
  now rewrite le_value_le_bytes.
Qed.

Lemma structToBitmask_le_bytes (s : list bool) :
  len s <= 64 ->
  structToBitmask s = le_bytes (maskWidth (length s)) (maskLoop 0 s 0).
Proof.
  unfold len. intros Hs. unfold structToBitmask, maskWidth, ceil8, len.
  set (k := length s) in *.
  pose proof (Z.div_mod (Z.of_nat k + 7) 8 ltac:(lia)) as Hdm.
  pose proof (Z.mod_pos_bound (Z.of_nat k + 7) 8 ltac:(lia)) as Hmb.
  set (q := (Z.of_nat k + 7) / 8) in *.
  unfold uint64, uint. rewrite (Z.mod_small q) by lia.
  destruct (Nat.leb_spec k 8) as [H8|H8];
    [|destruct (Nat.leb_spec k 16) as [H16|H16];
      [|destruct (Nat.leb_spec k 32) as [H32|H32]]];
    destruct (Z.ltb_spec 4 q); try lia;
    destruct (Z.ltb_spec 2 q); try lia;
    destruct (Z.ltb_spec 1 q); try lia;
    apply firstn_PutUint64; lia.
Qed.

Lemma bitmaskField_le_bytes (w : nat) (m i : Z) :
  In w [1; 2; 4; 8]%nat ->
  0 <= i < 8 * Z.of_nat w ->
  bitmaskField (le_bytes w m) i = Val (Z.testbit m i).
Proof.
  intros Hw Hi. unfold bitmaskField, len. rewrite length_le_bytes.
  cbn in Hw. destruct Hw as [<-|[<-|[<-|[<-|[]]]]].
  - cbn [Z.of_nat Z.ltb Z.compare Pos.compare Pos.compare_cont Pos.of_succ_nat
         Pos.succ le_bytes].
    unfold uint64. rewrite uint_flag, land_flag, byte_to_of_Z by lia.
    change 256 with (2 ^ 8). rewrite Z.mod_pow2_bits_low by lia. reflexivity.
  - change (4 <? Z.of_nat 2) with false. change (2 <? Z.of_nat 2) with false.
    change (1 <? Z.of_nat 2) with true. cbv iota.
    rewrite Uint_le_bytes. unfold uint16.
    rewrite uint_flag, land_flag by lia.
    rewrite Z.mod_pow2_bits_low by lia. reflexivity.
  - change (4 <? Z.of_nat 4) with false. change (2 <? Z.of_nat 4) with true.
    cbv iota.
    rewrite Uint_le_bytes. unfold uint32.
    rewrite uint_flag, land_flag by lia.
    rewrite Z.mod_pow2_bits_low by lia. reflexivity.
  - change (4 <? Z.of_nat 8) with true. cbv iota.
    rewrite Uint_le_bytes. unfold uint64.
    rewrite uint_flag, land_flag by lia.
    rewrite Z.mod_pow2_bits_low by lia. reflexivity.
Qed.

Lemma bitmaskFields_all (b : list byte) (r : list bool) :
  forall i,
    (forall j, (j < length r)%nat ->
               bitmaskField b (i + Z.of_nat j) = Val (nth j r false)) ->
    bitmaskFields b i (length r) = Val r.
Proof.
  induction r as [|v r IH]; intros i H; [reflexivity|].
  cbn [length bitmaskFields].
  pose proof (H 0%nat ltac:(cbn; lia)) as H0.
  rewrite Z.add_0_r in H0. cbn [nth] in H0. rewrite H0.
  rewrite IH; [reflexivity|].
  intros j Hj. specialize (H (S j) ltac:(cbn; lia)).
  cbn [nth] in H. rewrite <- H. f_equal. lia.
Qed.

Lemma maskWidth_fits (k : nat) :
  (k <= 64)%nat ->
  In (maskWidth k) [1; 2; 4; 8]%nat /\ (k <= 8 * maskWidth k)%nat /\
  forall w, In w [1; 2; 4; 8]%nat -> (k <= 8 * w)%nat -> (maskWidth k <= w)%nat.
Proof.
  intros Hk. unfold maskWidth.
  destruct (Nat.leb_spec k 8); [|destruct (Nat.leb_spec k 16); [|destruct (Nat.leb_spec k 32)]];
    (split; [cbn; tauto|]); (split; [lia|]);
    intros w Hw Hfit; cbn in Hw;
    destruct Hw as [<-|[<-|[<-|[<-|[]]]]]; lia.
Qed.

(** C7: for a struct of [k] boolean fields, [1 <= k <= 64], with any values,
    [structToBitmask] followed by [bitmaskToStruct] at the same shape gives
    the fields back; bit [i] of the little-endian mask is field [i]; and the
    mask is as wide as the least of 1, 2, 4, 8 bytes that holds [k] bits. *)
Theorem bitmaskToStruct_structToBitmask (s : list bool) :
  (1 <= length s <= 64)%nat ->
  bitmaskToStruct (structToBitmask s) (length s) = Val s /\
  (forall i, (i < length s)%nat ->
     Z.testbit (le_value (structToBitmask s)) (Z.of_nat i) = nth i s false) /\
  In (length (structToBitmask s)) [1; 2; 4; 8]%nat /\
  (length s <= 8 * length (structToBitmask s))%nat /\
  (forall w, In w [1; 2; 4; 8]%nat -> (length s <= 8 * w)%nat ->
     (length (structToBitmask s) <= w)%nat).
Proof.
  intros Hk.
  assert (Hs : len s <= 64) by (unfold len; lia).
  destruct (maskWidth_fits (length s) ltac:(lia)) as (Hin & Hfit & Hleast).
  rewrite (structToBitmask_le_bytes s Hs), length_le_bytes.
  split; [|split; [|split; [exact Hin | split; [exact Hfit | exact Hleast]]]].
  - unfold bitmaskToStruct. apply bitmaskFields_all.
    intros j Hj. rewrite Z.add_0_l.
    rewrite bitmaskField_le_bytes by (try exact Hin; lia).
    now rewrite mask_bits.
  - intros i Hi. rewrite le_value_le_bytes.
    rewrite Z.mod_pow2_bits_low by lia.
    now apply mask_bits.
Qed.

Lemma bitmaskToStruct_structToBitmask_witness :
  (1 <= length [true; false; true; true; false; false; false; false; false; true] <= 64)%nat /\
  bitmaskToStruct
    (structToBitmask [true; false; true; true; false; false; false; false; false; true])
    (length [true; false; true; true; false; false; false; false; false; true])
  = Val [true; false; true; true; false; false; false; false; false; true].
Proof.
  split; [cbn; lia|].
  apply (bitmaskToStruct_structToBitmask
           [true; false; true; true; false; false; false; false; false; true]).
  cbn; lia.
Defined.

(** ** Password scrambles *)

Lemma length_be_bytes (k : nat) (v : Z) : length (Digest.be_bytes k v) = k.
Proof. unfold Digest.be_bytes. now rewrite length_rev, length_le_bytes. Qed.

Lemma length_sha256Hash (word : list byte) : length (sha256Hash word) = 32%nat.
Proof.
  unfold sha256Hash, Digest.sum256. cbv zeta.
  rewrite !length_app, !length_be_bytes. reflexivity.
Qed.

Lemma length_sha1Hash (word : list byte) : length (sha1Hash word) = 20%nat.
Proof.
  unfold sha1Hash, Digest.sum1. cbv zeta.
  rewrite !length_app, !length_be_bytes. reflexivity.
Qed.

Lemma xorInto_within (p : list byte) :
  forall q, (length p <= length q)%nat -> xorInto p q = Val (xorBytes p q).
Proof.
  induction p as [|x p IH]; intros q Hq; [reflexivity|].
  destruct q as [|y q]; [cbn in Hq; lia|].
  cbn [xorInto]. rewrite IH by (cbn in Hq; lia). reflexivity.
Qed.

Lemma length_xorBytes (p q : list byte) :
  length p = length q -> length (xorBytes p q) = length p.
Proof.
  intros H. unfold xorBytes. rewrite length_map, length_combine. lia.
Qed.

(** C3, as the code has it: on an empty password [cachingSha2Auth] returns
    no bytes; on any other password it returns the 32 bytes of
    [SHA256(password)] combined byte by byte, by exclusive or, with
    [SHA256(inner ++ salt)], where [inner] is a SHA-256 digest fixed by the
    password alone. Both revisions of the file agree. *)
Theorem cachingSha2Auth_scramble :
  (forall salt, cachingSha2Auth salt [] = Val []) /\
  (forall p ps,
     exists pre,
       forall salt,
         cachingSha2Auth salt (p :: ps)
         = Val (xorBytes (sha256Hash (p :: ps))
                         (sha256Hash (sha256Hash pre ++ salt))) /\
         length (xorBytes (sha256Hash (p :: ps))
                          (sha256Hash (sha256Hash pre ++ salt))) = 32%nat) /\
  (forall salt password,
     Authentication.cachingSha2Auth salt password = cachingSha2Auth salt password).
Proof.
  split; [reflexivity|]. split; [|reflexivity].
  intros p ps. exists (sha256Hash (sha256Hash (p :: ps))). intros salt.
  split.
  - unfold cachingSha2Auth.
    replace (len (p :: ps) <? 1) with false
      by (symmetry; apply Z.ltb_ge; unfold len; cbn [length]; lia).
    cbv zeta. apply xorInto_within. now rewrite !length_sha256Hash.
  - rewrite length_xorBytes; now rewrite !length_sha256Hash.
Qed.

(** C3 as stated fails twice: on the empty password the code returns no
    bytes where the formula has 32, and on the password [secret] the code's
    32 bytes differ from the formula's. *)
Lemma cachingSha2Auth_not_documented :
  cachingSha2Auth salt20 [] = Val [] /\
  cachingSha2Auth salt20 [] <> documentedSha2Scramble salt20 [] /\
  cachingSha2Auth salt20 (bytes_of_string "secret")
  <> documentedSha2Scramble salt20 (bytes_of_string "secret").
Proof.
  split; [reflexivity|]. split; vm_compute; discriminate.
Qed.

(** What the code computes, in full: the digest that is extended by the salt
    is the threefold SHA-256 of the password. *)
Lemma cachingSha2Auth_inner (salt : list byte) (p : byte) (ps : list byte) :
  cachingSha2Auth salt (p :: ps)
  = Val (xorBytes (sha256Hash (p :: ps))
           (sha256Hash (sha256Hash (sha256Hash (sha256Hash (p :: ps))) ++ salt))).
Proof.
  unfold cachingSha2Auth.
  replace (len (p :: ps) <? 1) with false
    by (symmetry; apply Z.ltb_ge; unfold len; cbn [length]; lia).
  cbv zeta. apply xorInto_within. now rewrite !length_sha256Hash.
Qed.

(** C8: on an empty password [cachingSha2Auth] (both revisions) and the
    later [nativeSha1Auth] return no bytes, whatever the salt; the
    [nativeSha1Auth] of [binlog/authentication.go] has no such early return
    and answers with the 20 bytes of the scramble of the empty string. *)
Theorem empty_password_response :
  (forall salt, nativeSha1Auth salt [] = Val []) /\
  (forall salt, cachingSha2Auth salt [] = Val []) /\
  (forall salt, Authentication.cachingSha2Auth salt [] = Val []) /\
  (forall salt, exists r,
     Authentication.nativeSha1Auth salt [] = Val r /\ length r = 20%nat) /\
  Authentication.nativeSha1Auth salt20 []
  = Val (map byte_of_Z [96; 37; 45; 233; 240; 251; 233; 241; 82; 110;
                        195; 236; 57; 104; 34; 62; 80; 160; 114; 248]).
Proof.
  split; [reflexivity|]. split; [reflexivity|]. split; [reflexivity|]. split.
  - intros salt. eexists. split.
    + unfold Authentication.nativeSha1Auth. cbv zeta.
      apply xorInto_within. now rewrite !length_sha1Hash.
    + rewrite length_xorBytes; now rewrite !length_sha1Hash.
  - vm_compute. reflexivity.
Qed.

(** ** The encoder of length-encoded integers, case by case *)

Lemma encLenEncInt_ranges (v : Z) :
  (0 <= v < 255 -> encLenEncInt v = [byte_of_Z v]) /\
  (255 <= v < 65535 -> encLenEncInt v = Byte.xfc :: le_bytes 2 v) /\
  (65535 <= v < 16777215 -> encLenEncInt v = Byte.xfd :: le_bytes 3 v) /\
  (16777215 <= v < 18446744073709551615 ->
   encLenEncInt v = Byte.xfe :: le_bytes 8 v ++ [NullByte]).
Proof.
  unfold encLenEncInt, MaxUint08, MaxUint16, MaxUint24, MaxUint64.
  change (2 ^ 8 - 1) with 255. change (2 ^ 16 - 1) with 65535.
  change (2 ^ 24 - 1) with 16777215. change (2 ^ 64 - 1) with 18446744073709551615.
  repeat split; intros Hv.
  - destruct (Z.ltb_spec v 255); [|lia].
    unfold uint16, uint. rewrite Z.mod_small by (change (2 ^ 16) with 65536; lia).
    reflexivity.
  - destruct (Z.ltb_spec v 255); [lia|].
    destruct (Z.leb_spec 255 v); [|lia]. destruct (Z.ltb_spec v 65535); [|lia].
    unfold uint16, uint. rewrite Z.mod_small by (change (2 ^ 16) with 65536; lia).
    reflexivity.
  - destruct (Z.ltb_spec v 255); [lia|].
    destruct (Z.leb_spec 255 v); [|lia]. destruct (Z.ltb_spec v 65535); [lia|].
    destruct (Z.leb_spec 65535 v); [|lia]. destruct (Z.ltb_spec v 16777215); [|lia].
    unfold uint32, uint. rewrite Z.mod_small by (change (2 ^ 32) with 4294967296; lia).
    reflexivity.
  - destruct (Z.ltb_spec v 255); [lia|].
    destruct (Z.leb_spec 255 v); [|lia]. destruct (Z.ltb_spec v 65535); [lia|].
    destruct (Z.leb_spec 65535 v); [|lia]. destruct (Z.ltb_spec v 16777215); [lia|].
    destruct (Z.leb_spec 16777215 v); [|lia].
    destruct (Z.ltb_spec v 18446744073709551615); [|lia].
    reflexivity.
Qed.

(** ** The digests on the standard test vectors *)

Example sha256Hash_abc :
  sha256Hash (bytes_of_string "abc")
  = map byte_of_Z
      [0xba; 0x78; 0x16; 0xbf; 0x8f; 0x01; 0xcf; 0xea; 0x41; 0x41; 0x40; 0xde;
       0x5d; 0xae; 0x22; 0x23; 0xb0; 0x03; 0x61; 0xa3; 0x96; 0x17; 0x7a; 0x9c;
       0xb4; 0x10; 0xff; 0x61; 0xf2; 0x00; 0x15; 0xad].
Proof. vm_compute. reflexivity. Qed.

Example sha1Hash_abc :
  sha1Hash (bytes_of_string "abc")
  = map byte_of_Z
      [0xa9; 0x99; 0x3e; 0x36; 0x47; 0x06; 0x81; 0x6a; 0xba; 0x3e;
       0x25; 0x71; 0x78; 0x50; 0xc2; 0x6c; 0x9c; 0xd0; 0xd8; 0x9d].
Proof. vm_compute. reflexivity. Qed.

(** A message that takes two blocks. *)
Example sha256Hash_two_blocks :
  sha256Hash (bytes_of_string "abcdbcdecdefdefgefghfghighijhijkijkljklmklmnlmnomnopnopq")
  = map byte_of_Z
      [0x24; 0x8d; 0x6a; 0x61; 0xd2; 0x06; 0x38; 0xb8; 0xe5; 0xc0; 0x26; 0x93;
       0x0c; 0x3e; 0x60; 0x39; 0xa3; 0x3c; 0xe4; 0x59; 0x64; 0xff; 0x21; 0x67;
       0xf6; 0xec; 0xed; 0xd4; 0x19; 0xdb; 0x06; 0xc1].
Proof. vm_compute. reflexivity. Qed.

Example sha1Hash_two_blocks :
  sha1Hash (bytes_of_string "abcdbcdecdefdefgefghfghighijhijkijkljklmklmnlmnomnopnopq")
  = map byte_of_Z
      [0x84; 0x98; 0x3e; 0x44; 0x1c; 0x3b; 0xd2; 0x6e; 0xba; 0xae;
       0x4a; 0xa1; 0xf9; 0x51; 0x29; 0xe5; 0xe5; 0x46; 0x70; 0xf1].
Proof. vm_compute. reflexivity. Qed.

(** * Properties of the rest of the connection code *)

(** ** Reading *)

Lemma readLoop_outcome (n : nat) :
  forall p flt acc,
    readLoop n (mkScanner p flt) acc
    = match flt with
      | Some e =>
          if (length p <? n)%nat then Panic e
          else Val (acc ++ firstn n p, mkScanner (skipn n p) flt)
      | None => Val (acc ++ firstn n p, mkScanner (skipn n p) flt)
      end.
Proof.
  induction n as [|n IH]; intros p flt acc.
  - cbn. rewrite app_nil_r. destruct flt; reflexivity.
  - destruct p as [|x p].
    + destruct flt as [e|]; [reflexivity|].
      cbn [readLoop Scan pending Err fault]. rewrite IH.
      destruct n; reflexivity.
    + cbn [readLoop Scan pending fault]. rewrite IH.
      cbn [firstn skipn length]. rewrite <- app_assoc. cbn [app].
      destruct flt as [e|]; [|reflexivity].
      change (S (length p) <? S n)%nat with (length p <? n)%nat.
      reflexivity.
Qed.

Lemma readBytes_run (l : Z) (c : Conn) :
  readBytes l c
  = readOutcome (Z.to_nat l) (pending (scanner c)) (fault (scanner c)) c.
Proof.
  unfold readBytes, readOutcome.
  destruct c as [[p flt] w e s wb ph sp]. cbn [scanner pending fault].
  rewrite readLoop_outcome. cbn [app].
  destruct flt as [e'|]; [destruct (length p <? Z.to_nat l)%nat|]; reflexivity.
Qed.

(** X1: [readBytes l] takes the first [l] bytes the transport holds and
    advances the scan position by what it took. When the transport holds
    fewer, it panics with the read error if the transport broke, and returns
    the shorter run without any error if the transport ended cleanly. *)
Theorem readBytes_outcome (l : Z) (c : Conn) :
  let p := pending (scanner c) in
  let n := Z.to_nat l in
  ((n <= length p)%nat ->
   readBytes l c = Val (firstn n p, advanced (Z.of_nat n) (skipn n p) c)) /\
  ((length p < n)%nat -> fault (scanner c) = None ->
   readBytes l c = Val (p, advanced (len p) [] c)) /\
  ((length p < n)%nat -> forall e, fault (scanner c) = Some e ->
   readBytes l c = Panic e).
Proof.
  intros p n. rewrite readBytes_run. fold p n. unfold readOutcome.
  split; [|split].
  - intros Hn.
    assert (Hlen : len (firstn n p) = Z.of_nat n)
      by (unfold len; rewrite firstn_length_le by exact Hn; reflexivity).
    rewrite Hlen.
    destruct (fault (scanner c)) as [e|]; [|reflexivity].
    destruct (Nat.ltb_spec (length p) n); [lia | reflexivity].
  - intros Hn Hf. rewrite Hf.
    rewrite firstn_all2, skipn_all2 by lia. reflexivity.
  - intros Hn e Hf. rewrite Hf.
    destruct (Nat.ltb_spec (length p) n); [reflexivity | lia].
Qed.

Lemma readBytes_outcome_witness :
  (length (pending (scanner (connOn [Byte.x01; Byte.x02]))) < Z.to_nat 4)%nat /\
  fault (scanner (connOn [Byte.x01; Byte.x02])) = None /\
  readBytes 4 (connOn [Byte.x01; Byte.x02])
  = Val ([Byte.x01; Byte.x02],
         advanced (len [Byte.x01; Byte.x02]) [] (connOn [Byte.x01; Byte.x02])).
Proof.
  assert (H : (length (pending (scanner (connOn [Byte.x01; Byte.x02]))) < Z.to_nat 4)%nat)
    by (cbn; lia).
  split; [exact H|]. split; [reflexivity|].
  exact (proj1 (proj2 (readBytes_outcome 4 (connOn [Byte.x01; Byte.x02]))) H eq_refl).
Defined.

Lemma readBytes_feed (bs rest : list byte) (c : Conn) :
  readBytes (len bs) (feed (bs ++ rest) c) = Val (bs, advanced (len bs) rest c).
Proof.
  rewrite (readBytes_prefix bs rest) by reflexivity.
  destruct c as [[p flt] w e s wb ph sp]. reflexivity.
Qed.

Lemma advanced_advanced (a b : Z) (r1 r2 : list byte) (c : Conn) :
  advanced a r1 (advanced b r2 c) = advanced (b + a) r1 c.
Proof.
  destruct c as [[p flt] w e s wb ph sp].
  unfold advanced, set_scanPos, set_scanner. cbn.
  f_equal. unfold uint64, uint.
  rewrite Zplus_mod_idemp_l. f_equal. lia.
Qed.

Lemma advanced_feed (n : Z) (rest bs : list byte) (c : Conn) :
  advanced n rest (feed bs c) = advanced n rest c.
Proof. destruct c as [[p flt] w e s wb ph sp]. reflexivity. Qed.

Lemma readBytes_advanced (bs rest : list byte) (k : Z) (c : Conn) :
  readBytes (len bs) (advanced k (bs ++ rest) c)
  = Val (bs, advanced (k + len bs) rest c).
Proof.
  rewrite (readBytes_prefix bs rest) by (destruct c as [[p flt] w e s wb ph sp]; reflexivity).
  now rewrite advanced_advanced.
Qed.

(** ** Fixed-length integers, the other way round *)

Lemma byte_of_Z_congr (a b : Z) : a mod 256 = b mod 256 -> byte_of_Z a = byte_of_Z b.
Proof. intros H. unfold byte_of_Z. now rewrite H. Qed.

Lemma le_bytes_le_value (bs : list byte) :
  le_bytes (length bs) (le_value bs) = bs.
Proof.
  induction bs as [|b r IH]; [reflexivity|].
  cbn [length le_bytes le_value]. f_equal.
  - rewrite <- (byte_of_to_Z b) at 2.
    apply byte_of_Z_congr.
    change 256 with (2 ^ 8).
    apply Z.bits_inj'. intros i Hi.
    rewrite !Z.testbit_mod_pow2 by lia.
    destruct (Z.ltb_spec i 8) as [Hlt|Hge]; [|reflexivity].
    cbn [andb]. rewrite Z.lor_spec, Z.shiftl_spec by lia.
    rewrite (Z.testbit_neg_r _ (i - 8)) by lia. apply orb_false_r.
  - assert (E : Z.shiftr (Z.lor (byte_to_Z b) (Z.shiftl (le_value r) 8)) 8
                 = le_value r).
    { apply Z.bits_inj'. intros i Hi.
      rewrite Z.shiftr_spec, Z.lor_spec, Z.shiftl_spec by lia.
      replace (i + 8 - 8) with i by lia.
      pose proof (byte_to_Z_range b) as Hb.
      rewrite <- (Z.mod_small (byte_to_Z b) (2 ^ 8)) by (change (2 ^ 8) with 256; lia).
      rewrite Z.mod_pow2_bits_high by lia. reflexivity. }
    rewrite E. exact IH.
Qed.

(** X2: decoding any run of at most eight bytes and encoding the value again
    at the same width gives the bytes back, so [decFixedInt] loses nothing
    on such a run. *)
Theorem encFixedLenInt_decFixedInt (bs rest : list byte) (c : Conn) :
  len bs <= 8 ->
  exists v,
    decFixedInt (len bs) (feed (bs ++ rest) c) = Val (v, advanced (len bs) rest c) /\
    encFixedLenInt v (len bs) = Val bs.
Proof.
  intros Hn. exists (le_value bs). split.
  - rewrite decFixedInt_unfold, readBytes_feed.
    rewrite fixedIntOf_le_value; [reflexivity | unfold len in *; lia | lia].
  - unfold len in *. rewrite encFixedLenInt_le_bytes by lia.
    now rewrite le_bytes_le_value.
Qed.

Lemma encFixedLenInt_decFixedInt_witness :
  len [Byte.x34; Byte.x12; Byte.xff] <= 8 /\
  exists v,
    decFixedInt (len [Byte.x34; Byte.x12; Byte.xff])
                (feed ([Byte.x34; Byte.x12; Byte.xff] ++ [Byte.x00]) (connOn []))
    = Val (v, advanced (len [Byte.x34; Byte.x12; Byte.xff]) [Byte.x00] (connOn [])) /\
    encFixedLenInt v (len [Byte.x34; Byte.x12; Byte.xff])
    = Val [Byte.x34; Byte.x12; Byte.xff].
Proof.
  split; [cbv; discriminate|].
  apply (encFixedLenInt_decFixedInt [Byte.x34; Byte.x12; Byte.xff]).
  cbv; discriminate.
Defined.

(** X3: a fixed integer wider than eight bytes is taken off the transport
    in full and decoded as 0. *)
Theorem decFixedInt_wide (bs rest : list byte) (c : Conn) :
  8 < len bs ->
  decFixedInt (len bs) (feed (bs ++ rest) c) = Val (0, advanced (len bs) rest c).
Proof.
  intros Hn. rewrite decFixedInt_unfold, readBytes_feed.
  unfold fixedIntOf.
  destruct (Z.leb_spec (len bs) 2); [lia|].
  destruct (Z.leb_spec (len bs) 4); [lia|].
  destruct (Z.leb_spec (len bs) 8); [lia|]. reflexivity.
Qed.

Lemma decFixedInt_wide_witness :
  8 < len (repeat Byte.xff 9) /\
  decFixedInt (len (repeat Byte.xff 9)) (feed (repeat Byte.xff 9 ++ []) (connOn []))
  = Val (0, advanced (len (repeat Byte.xff 9)) [] (connOn [])).
Proof.
  split; [reflexivity|]. apply decFixedInt_wide. reflexivity.
Defined.

(** ** Null-terminated strings *)

Lemma eqb_NullByte_false (x : byte) : x <> NullByte -> Byte.eqb x NullByte = false.
Proof.
  intros Hx. destruct (Byte.eqb x NullByte) eqn:E; [|reflexivity].
  apply Byte.byte_dec_bl in E. contradiction.
Qed.

Lemma untilNullLoop_stop (fuel : nat) (b : list byte) :
  untilNullLoop fuel [NullByte] b = ret b.
Proof. destruct fuel; reflexivity. Qed.

Lemma untilNullLoop_short (fuel : nat) (b : list byte) :
  untilNullLoop fuel [] b = ret b.
Proof. destruct fuel; reflexivity. Qed.

Lemma untilNullLoop_step (fuel : nat) (x : byte) (b : list byte) :
  x <> NullByte ->
  untilNullLoop (S fuel) [x] b
  = (s' <- readBytes 1 ;; untilNullLoop fuel s' (b ++ s')).
Proof.
  intros Hx. cbn [untilNullLoop].
  change (len [x] =? 1) with true. cbn [negb orb].
  now rewrite eqb_NullByte_false.
Qed.

Lemma untilNullLoop_terminated (bs : list byte) :
  forall fuel x b rest k c,
    (length bs < fuel)%nat ->
    x <> NullByte ->
    Forall (fun y => y <> NullByte) bs ->
    untilNullLoop fuel [x] b (advanced k (bs ++ NullByte :: rest) c)
    = Val (b ++ bs ++ [NullByte], advanced (k + len bs + 1) rest c).
Proof.
  induction bs as [|y bs IH]; intros fuel x b rest k c Hfuel Hx Hbs;
    (destruct fuel as [|fuel]; [cbn in Hfuel; lia|]);
    rewrite untilNullLoop_step by exact Hx; unfold bind at 1.
  - cbn [app].
    rewrite (readBytes_advanced [NullByte] rest).
    rewrite untilNullLoop_stop. unfold ret. do 3 f_equal. unfold len. cbn. lia.
  - cbn [app].
    rewrite (readBytes_advanced [y] (bs ++ NullByte :: rest)).
    inversion Hbs as [|? ? Hy Hrest]; subst.
    rewrite IH by (try assumption; cbn in Hfuel; lia).
    rewrite <- app_assoc. cbn [app]. do 3 f_equal.
    unfold len. cbn [length]. lia.
Qed.

Lemma untilNullLoop_eof (bs : list byte) :
  forall fuel x b k c,
    (length bs < fuel)%nat ->
    x <> NullByte ->
    Forall (fun y => y <> NullByte) bs ->
    fault (scanner c) = None ->
    untilNullLoop fuel [x] b (advanced k bs c)
    = Val (b ++ bs, advanced (k + len bs) [] c).
Proof.
  induction bs as [|y bs IH]; intros fuel x b k c Hfuel Hx Hbs Hc;
    (destruct fuel as [|fuel]; [cbn in Hfuel; lia|]);
    rewrite untilNullLoop_step by exact Hx; unfold bind at 1.
  - rewrite readBytes_run.
    destruct c as [[p flt] w e s wb ph sp]. cbn in Hc. subst flt.
    cbn [advanced set_scanPos set_scanner scanner pending fault readOutcome
         firstn skipn Z.to_nat Pos.to_nat Pos.iter_op Nat.add].
    rewrite untilNullLoop_short. unfold ret. rewrite !app_nil_r.
    do 2 f_equal. unfold advanced, set_scanPos, set_scanner. cbn.
    f_equal. unfold uint64, uint, len. cbn [length Z.of_nat].
    rewrite !Z.add_0_r. apply Z.mod_mod. lia.
  - rewrite (readBytes_advanced [y] bs).
    inversion Hbs as [|? ? Hy Hrest]; subst.
    rewrite IH by (try assumption; cbn in Hfuel; lia).
    rewrite <- app_assoc. cbn [app]. do 3 f_equal.
    unfold len. cbn [length]. lia.
Qed.

Lemma dropNulls_head (l : list byte) :
  Forall (fun y => y <> NullByte) l -> dropNulls l = l.
Proof.
  intros H. destruct H as [|x l Hx Hl]; [reflexivity|].
  cbn [dropNulls]. now rewrite eqb_NullByte_false.
Qed.

Lemma TrimRightNull_clean (s : list byte) :
  Forall (fun y => y <> NullByte) s -> TrimRightNull s = s.
Proof.
  intros H. unfold TrimRightNull.
  rewrite dropNulls_head by (apply Forall_rev; exact H).
  apply rev_involutive.
Qed.

Lemma TrimRightNull_terminated (s : list byte) :
  Forall (fun y => y <> NullByte) s -> TrimRightNull (s ++ [NullByte]) = s.
Proof.
  intros H. unfold TrimRightNull. rewrite rev_app_distr. cbn [rev app dropNulls].
  change (Byte.eqb NullByte NullByte) with true. cbv iota.
  rewrite dropNulls_head by (apply Forall_rev; exact H).
  apply rev_involutive.
Qed.

Lemma getBytesUntilNull_terminated (s rest : list byte) (c : Conn) :
  Forall (fun y => y <> NullByte) s ->
  getBytesUntilNull (feed (s ++ NullByte :: rest) c)
  = Val (s ++ [NullByte], advanced (len s + 1) rest c).
Proof.
  intros Hs. unfold getBytesUntilNull, bind at 1.
  destruct s as [|x s].
  - cbn [app]. rewrite (readBytes_feed [NullByte] rest).
    unfold bind, get. rewrite untilNullLoop_stop. reflexivity.
  - cbn [app]. rewrite (readBytes_feed [x] (s ++ NullByte :: rest)).
    inversion Hs as [|? ? Hx Hrest]; subst.
    unfold bind, get.
    rewrite untilNullLoop_terminated; try assumption.
    + do 3 f_equal. unfold len. cbn [length]. lia.
    + destruct c as [[p flt] w e sq wb ph sp]. cbn. rewrite length_app. cbn. lia.
Qed.

Lemma decNullTerminatedString_feed (s rest : list byte) (c : Conn) :
  Forall (fun y => y <> NullByte) s ->
  decNullTerminatedString (feed (s ++ NullByte :: rest) c)
  = Val (s, advanced (len s + 1) rest c).
Proof.
  intros Hs. unfold decNullTerminatedString, bind.
  rewrite getBytesUntilNull_terminated by exact Hs.
  unfold ret. now rewrite TrimRightNull_terminated.
Qed.

(** X4: a string without a null byte that was written null-terminated is
    read back as it was; the terminator is consumed and what follows it on
    the transport is left alone. *)
Theorem decNullTerminatedString_encNullTerminatedString
  (s rest : list byte) (c : Conn) :
  Forall (fun y => y <> NullByte) s ->
  decNullTerminatedString (feed (encNullTerminatedString s ++ rest) c)
  = Val (s, advanced (len s + 1) rest c).
Proof.
  intros Hs. unfold encNullTerminatedString.
  rewrite <- app_assoc. cbn [app]. now apply decNullTerminatedString_feed.
Qed.

Lemma decNullTerminatedString_encNullTerminatedString_witness :
  Forall (fun y => y <> NullByte) (bytes_of_string "root") /\
  decNullTerminatedString
    (feed (encNullTerminatedString (bytes_of_string "root") ++ [Byte.x2a]) (connOn []))
  = Val (bytes_of_string "root", advanced (len (bytes_of_string "root") + 1) [Byte.x2a] (connOn [])).
Proof.
  assert (H : Forall (fun y => y <> NullByte) (bytes_of_string "root"))
    by (repeat constructor; discriminate).
  split; [exact H|].
  exact (decNullTerminatedString_encNullTerminatedString
           (bytes_of_string "root") [Byte.x2a] (connOn []) H).
Defined.

(** X5: when the transport ends cleanly before any null byte arrives,
    [decNullTerminatedString] returns what it read as if the string had been
    terminated: no error, no panic. *)
Theorem decNullTerminatedString_unterminated (s : list byte) (c : Conn) :
  Forall (fun y => y <> NullByte) s ->
  decNullTerminatedString (feedClean s c)
  = Val (s, advanced (len s) [] (feedClean s c)).
Proof.
  intros Hs. destruct s as [|x s].
  - destruct c as [[p flt] w e sq wb ph sp]. reflexivity.
  - unfold decNullTerminatedString, getBytesUntilNull.
    unfold bind at 1. unfold bind at 1.
    rewrite (readBytes_prefix [x] s) by (destruct c as [[p flt] w e sq wb ph sp]; reflexivity).
    inversion Hs as [|? ? Hx Hrest]; subst.
    unfold bind, get.
    rewrite untilNullLoop_eof; try assumption.
    + unfold ret. rewrite TrimRightNull_clean by exact Hs.
      do 3 f_equal. unfold len. cbn [length]. lia.
    + destruct c as [[p flt] w e sq wb ph sp]. cbn. lia.
    + destruct c as [[p flt] w e sq wb ph sp]. reflexivity.
Qed.

Lemma decNullTerminatedString_unterminated_witness :
  Forall (fun y => y <> NullByte) (bytes_of_string "abc") /\
  decNullTerminatedString (feedClean (bytes_of_string "abc") (connOn []))
  = Val (bytes_of_string "abc",
         advanced (len (bytes_of_string "abc")) [] (feedClean (bytes_of_string "abc") (connOn []))).
Proof.
  assert (H : Forall (fun y => y <> NullByte) (bytes_of_string "abc"))
    by (repeat constructor; discriminate).
  split; [exact H|].
  exact (decNullTerminatedString_unterminated (bytes_of_string "abc") (connOn []) H).
Defined.

(** ** Packet headers and bodies *)

Lemma getInt_fixed (l : Z) : getInt TypeFixedInt l = decFixedInt l.
Proof. reflexivity. Qed.

Lemma decFixedInt_at (v : Z) (n : nat) (rest : list byte) (c : Conn) :
  (n <= 8)%nat ->
  pending (scanner c) = le_bytes n v ++ rest ->
  getInt TypeFixedInt (Z.of_nat n) c
  = Val (v mod 2 ^ (8 * Z.of_nat n), advanced (Z.of_nat n) rest c).
Proof. intros. rewrite getInt_fixed. now apply decFixedInt_roundtrip. Qed.

Lemma pending_advanced (k : Z) (bs : list byte) (c : Conn) :
  pending (scanner (advanced k bs c)) = bs.
Proof. reflexivity. Qed.

Lemma getPacketHeader_frame (sID : Z) (st : byte) (payload rest : list byte) (c : Conn) :
  getPacketHeader (feedClean (frameOf sID (st :: payload) ++ rest) c)
  = Val ((mkPacketHeader (len (st :: payload) mod 2 ^ 24) (sID mod 256) (byte_to_Z st),
          None),
         inPacket (mkPacketHeader (len (st :: payload) mod 2 ^ 24) (sID mod 256)
                                  (byte_to_Z st))
                  (payload ++ rest) c).
Proof.
  unfold getPacketHeader, frameOf.
  unfold bind at 1.
  rewrite (decFixedInt_at (uint64 (len (st :: payload))) 3
             (le_bytes 1 sID ++ (st :: payload) ++ rest))
    by (try lia; cbn [feedClean set_scanner scanner pending];
        now rewrite <- !app_assoc).
  unfold bind at 1.
  rewrite (decFixedInt_at sID 1 ((st :: payload) ++ rest)) by (try lia; reflexivity).
  unfold bind at 1.
  rewrite (decFixedInt_at (byte_to_Z st) 1 (payload ++ rest))
    by (try lia; cbn [le_bytes]; rewrite byte_of_to_Z; reflexivity).
  replace (uint64 (len (st :: payload)) mod 2 ^ (8 * Z.of_nat 3))
    with (len (st :: payload) mod 2 ^ 24)
    by (unfold uint64, uint; symmetry; apply Z.mod_mod_divide;
        exists (2 ^ 40); reflexivity).
  replace (byte_to_Z st mod 2 ^ (8 * Z.of_nat 1)) with (byte_to_Z st)
    by (symmetry; apply Z.mod_small; apply byte_to_Z_range).
  change (2 ^ (8 * Z.of_nat 1)) with 256.
  destruct c as [[p flt] w e sq wb ph sp].
  unfold bind, get, Err. cbn [advanced set_scanPos set_scanner scanner pending fault
                              feedClean].
  destruct (payload ++ rest); reflexivity.
Qed.

Lemma getRemainingBytes_run (ph : PacketHeader) (bs rest : list byte) (c : Conn) :
  packetHeader c = Some ph ->
  uint64 (uint64 (Length ph - 1) - scanPos c) = len bs ->
  pending (scanner c) = bs ++ rest ->
  getRemainingBytes c = Val (bs, advanced (len bs) rest c).
Proof.
  intros Hph Hl Hp. unfold getRemainingBytes, bind, get.
  rewrite Hph, Hl. now apply readBytes_prefix.
Qed.

(** X6: a packet that [Flush] framed is read back whole. When a ready
    connection sends the payload [st :: payload] of fewer than [2^24] bytes,
    a peer that reads the delivered frame with [getPacketHeader] and
    [decRestOfPacketString] gets the payload length, the sender's sequence
    counter truncated to a byte and the status byte [st] in the header, then
    exactly [payload], and leaves what follows the frame on the transport. *)
Theorem readFrame_sendPacket
  (st : byte) (payload : list byte) (sender : Conn) :
  ready sender ->
  writeBuf sender = None ->
  len (st :: payload) < 2 ^ 24 ->
  exists sender' frame,
    sendPacket (st :: payload) sender = Val (None, sender') /\
    sent (buffer sender') = sent (buffer sender) ++ [frame] /\
    forall rest c,
      let ph := mkPacketHeader (len (st :: payload))
                               (sequenceID sender mod 256) (byte_to_Z st) in
      readFrame (feedClean (frame ++ rest) c)
      = Val ((ph, None, payload), advanced (len payload) rest (inPacket ph [] c)).
Proof.
  intros Hready Hwb Hlen.
  destruct (sendPacket_ready (st :: payload) sender Hready)
    as (sender' & Hrun & _ & _ & _ & Hsent).
  rewrite Hwb in Hsent. cbn [app] in Hsent.
  exists sender', (frameOf (sequenceID sender) (st :: payload)).
  split; [exact Hrun|]. split; [exact Hsent|].
  intros rest c ph. unfold readFrame, bind at 1.
  rewrite getPacketHeader_frame.
  assert (Hpos : 0 <= len (st :: payload)) by (unfold len; lia).
  rewrite (Z.mod_small (len (st :: payload)) (2 ^ 24)) by lia.
  fold ph. unfold bind at 1, decRestOfPacketString.
  rewrite (getRemainingBytes_run ph payload rest).
  - reflexivity.
  - reflexivity.
  - cbn [inPacket set_scanPos set_packetHeader feedClean set_scanner scanPos
         packetHeader Length ph].
    unfold uint64, uint, len in *. cbn [length] in *.
    rewrite Z.sub_0_r. rewrite Z.mod_mod by lia.
    replace (Z.of_nat (S (length payload)) - 1) with (Z.of_nat (length payload)) by lia.
    apply Z.mod_small. change (2 ^ 64) with 18446744073709551616.
    change (2 ^ 24) with 16777216 in Hlen. lia.
  - reflexivity.
Qed.

Lemma readFrame_sendPacket_witness :
  ready (connOn []) /\ writeBuf (connOn []) = None /\
  len (Byte.x03 :: bytes_of_string "select 1") < 2 ^ 24 /\
  exists sender' frame,
    sendPacket (Byte.x03 :: bytes_of_string "select 1") (connOn []) = Val (None, sender') /\
    sent (buffer sender') = sent (buffer (connOn [])) ++ [frame] /\
    forall rest c,
      let ph := mkPacketHeader (len (Byte.x03 :: bytes_of_string "select 1"))
                               (sequenceID (connOn []) mod 256) (byte_to_Z Byte.x03) in
      readFrame (feedClean (frame ++ rest) c)
      = Val ((ph, None, bytes_of_string "select 1"),
             advanced (len (bytes_of_string "select 1")) rest (inPacket ph [] c)).
Proof.
  assert (Hc : ready (connOn [])) by (repeat split).
  split; [exact Hc|]. split; [reflexivity|]. split; [reflexivity|].
  exact (readFrame_sendPacket Byte.x03 (bytes_of_string "select 1") (connOn [])
           Hc eq_refl eq_refl).
Defined.

(** ** Decoding packets field by field *)

Lemma getInt_fixed_advanced (v : Z) (n : nat) (rest : list byte) (k : Z) (c : Conn) :
  (n <= 8)%nat ->
  getInt TypeFixedInt (Z.of_nat n) (advanced k (le_bytes n v ++ rest) c)
  = Val (v mod 2 ^ (8 * Z.of_nat n), advanced (k + Z.of_nat n) rest c).
Proof.
  intros Hn. rewrite (decFixedInt_at v n rest) by (try exact Hn; reflexivity).
  now rewrite advanced_advanced.
Qed.

Lemma getString_fixed_advanced (n : Z) (bs rest : list byte) (k : Z) (c : Conn) :
  len bs = n ->
  getString TypeFixedString n (advanced k (bs ++ rest) c)
  = Val (bs, advanced (k + n) rest c).
Proof. intros <-. apply readBytes_advanced. Qed.

Lemma getString_rest_advanced
  (ph : PacketHeader) (bs rest : list byte) (k l : Z) (c : Conn) :
  packetHeader c = Some ph ->
  uint64 (uint64 (Length ph - 1) - uint64 (scanPos c + k)) = len bs ->
  getString TypeRestOfPacketString l (advanced k (bs ++ rest) c)
  = Val (bs, advanced (k + len bs) rest c).
Proof.
  intros Hph Hl.
  change (getString TypeRestOfPacketString l) with getRemainingBytes.
  rewrite (getRemainingBytes_run ph bs rest).
  - now rewrite advanced_advanced.
  - destruct c as [[p flt] w e sq wb ph0 sp]. exact Hph.
  - destruct c as [[p flt] w e sq wb ph0 sp]. exact Hl.
  - reflexivity.
Qed.

(** Whatever the next byte is, a length-encoded integer read takes it and
    yields 0. *)
Lemma getInt_lenenc_advanced (b : byte) (rest : list byte) (k l : Z) (c : Conn) :
  getInt TypeLenEncInt l (advanced k (b :: rest) c)
  = Val (0, advanced (k + 1) rest c).
Proof.
  change (getInt TypeLenEncInt l) with decLenEncInt.
  unfold decLenEncInt, bind.
  rewrite (readBytes_advanced [b] rest). reflexivity.
Qed.

Lemma inPacket_advanced (ph : PacketHeader) (bs : list byte) (c : Conn) :
  inPacket ph bs c = advanced 0 bs (inPacket ph [] c).
Proof. destruct c as [[p flt] w e sq wb ph0 sp]. reflexivity. Qed.

Lemma Err_clean (k : Z) (bs : list byte) (ph : PacketHeader) (c : Conn) :
  Err (scanner (advanced k bs (inPacket ph [] c))) = None.
Proof. unfold Err. cbn. destruct bs; reflexivity. Qed.

Lemma rest_of_packet_length (n k : Z) :
  0 <= k -> 0 <= n -> k + n + 1 < 2 ^ 24 ->
  uint64 (uint64 ((k + n + 1) - 1) - uint64 (0 + k)) = n.
Proof.
  intros Hk Hn Hlt. unfold uint64, uint.
  change (2 ^ 24) with 16777216 in Hlt.
  change (2 ^ 64) with 18446744073709551616.
  rewrite (Z.mod_small (k + n + 1 - 1)) by lia.
  rewrite (Z.mod_small (0 + k)) by lia.
  replace (k + n + 1 - 1 - (0 + k)) with n by lia.
  apply Z.mod_small. lia.
Qed.

Lemma decodeErrorPacket_body
  (ph : PacketHeader) (code : Z) (marker : byte) (state msg rest : list byte) (c : Conn) :
  length state = 5%nat ->
  Length ph = 8 + len msg + 1 ->
  len msg + 9 < 2 ^ 24 ->
  decodeErrorPacket ph
    (inPacket ph ((le_bytes 2 code ++ marker :: state ++ msg) ++ rest) c)
  = Val ((Some (mkErrorPacket ph (code mod 2 ^ 16) msg [marker] state), None),
         advanced (8 + len msg) rest (inPacket ph [] c)).
Proof.
  intros Hstate Hfull Hlen.
  assert (Hmsg : 0 <= len msg) by (unfold len; lia).
  unfold decodeErrorPacket.
  rewrite inPacket_advanced.
  repeat (rewrite <- app_assoc || rewrite <- app_comm_cons).
  unfold bind at 1. rewrite (getInt_fixed_advanced code 2) by lia.
  unfold bind at 1.
  change (marker :: state ++ msg ++ rest) with ([marker] ++ state ++ msg ++ rest).
  rewrite (getString_fixed_advanced 1 [marker]) by reflexivity.
  unfold bind at 1.
  rewrite (getString_fixed_advanced 5 state)
    by (unfold len; rewrite Hstate; reflexivity).
  unfold bind at 1.
  rewrite (getString_rest_advanced ph msg rest).
  - unfold bind, get. rewrite Err_clean. unfold ret.
    do 3 f_equal.
  - reflexivity.
  - cbn [inPacket set_scanPos set_packetHeader scanPos].
    rewrite Hfull.
    apply (rest_of_packet_length (len msg) 8); lia.
Qed.

(** X7: an error packet is decoded field by field. For a framed payload
    [0xFF], a two-byte little-endian code, a one-byte marker, a five-byte
    SQL state and a message, [getPacketHeader] followed by
    [decodeErrorPacket] returns the code, the marker, the state and the whole
    message, with no error, and stops at the end of the packet. *)
Theorem decodeErrorPacket_frame
  (sID code : Z) (marker : byte) (state msg rest : list byte) (c : Conn) :
  length state = 5%nat ->
  len msg + 9 < 2 ^ 24 ->
  let payload := le_bytes 2 code ++ marker :: state ++ msg in
  let ph := mkPacketHeader (len (Byte.xff :: payload)) (sID mod 256) StatusErr in
  (h <- getPacketHeader ;; decodeErrorPacket (fst h))
    (feedClean (frameOf sID (Byte.xff :: payload) ++ rest) c)
  = Val ((Some (mkErrorPacket ph (code mod 2 ^ 16) msg [marker] state), None),
         advanced (len payload) rest (inPacket ph [] c)).
Proof.
  intros Hstate Hlen payload ph.
  assert (Hpl : len payload = 8 + len msg).
  { unfold payload, len. rewrite !length_app. cbn [length].
    rewrite length_app, length_le_bytes, Hstate. lia. }
  assert (Hmsg : 0 <= len msg) by (unfold len; lia).
  rewrite Hpl.
  unfold bind at 1. rewrite getPacketHeader_frame.
  assert (Hfull : Length ph = 8 + len msg + 1).
  { unfold ph, len in *. cbn [Length].
    change (length (_ :: payload)) with (S (length payload)). lia. }
  change (len (_ :: payload)) with (Length ph).
  rewrite (Z.mod_small (Length ph) (2 ^ 24)) by lia.
  change (byte_to_Z Byte.xff) with StatusErr.
  change (mkPacketHeader (Length ph) (sID mod 256) StatusErr) with ph. cbn [fst].
  unfold payload. now apply decodeErrorPacket_body.
Qed.

Lemma decodeErrorPacket_frame_witness :
  length (bytes_of_string "HY000") = 5%nat /\
  len (bytes_of_string "bad thing") + 9 < 2 ^ 24 /\
  (h <- getPacketHeader ;; decodeErrorPacket (fst h))
    (feedClean
       (frameOf 2 (Byte.xff :: le_bytes 2 1045 ++ Byte.x23 :: bytes_of_string "HY000"
                             ++ bytes_of_string "bad thing") ++ []) (connOn []))
  = Val ((Some (mkErrorPacket
                  (mkPacketHeader
                     (len (Byte.xff :: le_bytes 2 1045 ++ Byte.x23 :: bytes_of_string "HY000"
                                      ++ bytes_of_string "bad thing"))
                     (2 mod 256) StatusErr)
                  (1045 mod 2 ^ 16) (bytes_of_string "bad thing") [Byte.x23]
                  (bytes_of_string "HY000")), None),
         advanced (len (le_bytes 2 1045 ++ Byte.x23 :: bytes_of_string "HY000"
                          ++ bytes_of_string "bad thing")) []
           (inPacket (mkPacketHeader
                        (len (Byte.xff :: le_bytes 2 1045 ++ Byte.x23 :: bytes_of_string "HY000"
                                         ++ bytes_of_string "bad thing"))
                        (2 mod 256) StatusErr) [] (connOn []))).
Proof.
  split; [reflexivity|]. split; [reflexivity|].
  exact (decodeErrorPacket_frame 2 1045 Byte.x23 (bytes_of_string "HY000")
           (bytes_of_string "bad thing") [] (connOn []) eq_refl eq_refl).
Defined.

Lemma getInt_byte_advanced (w : byte) (rest : list byte) (k : Z) (c : Conn) :
  getInt TypeFixedInt 1 (advanced k (w :: rest) c)
  = Val (byte_to_Z w, advanced (k + 1) rest c).
Proof.
  pose proof (getInt_fixed_advanced (byte_to_Z w) 1 rest k c ltac:(lia)) as H.
  cbn [le_bytes app] in H. rewrite byte_of_to_Z in H.
  change (Z.of_nat 1) with 1 in H. rewrite H. do 2 f_equal.
  apply Z.mod_small. apply byte_to_Z_range.
Qed.

Ltac solve_len :=
  unfold len; cbn [length]; rewrite ?length_app, ?length_le_bytes; cbn [length]; lia.

Lemma decodeOKPacket_body
  (flags : ClientFlag) (ph : PacketHeader) (a l : byte) (statusFlags : Z)
  (warnings : byte) (info rest : list byte) (c : Conn) :
  let payload := a :: l :: okStatusFields flags statusFlags warnings ++ info in
  Length ph = len payload + 1 ->
  Length ph < 2 ^ 24 ->
  decodeOKPacket flags ph (inPacket ph (payload ++ rest) c)
  = Val ((mkOKPacket ph (Status ph) 0 0
            (if Protocol41 flags || Transactions flags
             then statusFlags mod 2 ^ 16 else 0)
            (if Protocol41 flags then byte_to_Z warnings else 0)
            info [], None),
         advanced (len payload) rest (inPacket ph [] c)).
Proof.
  intros payload HL Hlen.
  assert (Hinfo : 0 <= len info) by (unfold len; lia).
  assert (Hpos : 0 <= len payload) by (unfold len; lia).
  unfold decodeOKPacket. rewrite inPacket_advanced.
  assert (Hrest : forall k,
             0 <= k -> len payload = k + len info ->
             uint64 (uint64 (Length ph - 1) - uint64 (scanPos (inPacket ph [] c) + (0 + k)))
             = len info).
  { intros k Hk Hp. cbn [inPacket set_scanPos scanPos]. rewrite HL, Hp.
    replace (0 + (0 + k)) with (0 + k) by lia.
    apply (rest_of_packet_length (len info) k); lia. }
  revert Hrest. unfold payload, okStatusFields.
  destruct flags as [p41 tx strack lenenc secure].
  cbn [Protocol41 Transactions SessionTrack].
  intros Hrest. rewrite <- !app_comm_cons.
  unfold bind at 1. rewrite getInt_lenenc_advanced.
  unfold bind at 1. rewrite getInt_lenenc_advanced.
  destruct p41; [|destruct tx]; cbn [orb];
    repeat (rewrite <- app_assoc || rewrite <- app_comm_cons); cbn [app].
  - unfold bind at 1. unfold bind at 1.
    rewrite (getInt_fixed_advanced statusFlags 2) by lia.
    unfold bind at 1. rewrite getInt_byte_advanced.
    unfold ret at 1. unfold bind at 1.
    replace (if strack then getString TypeRestOfPacketString 0
             else getString TypeRestOfPacketString 0)
      with (getString TypeRestOfPacketString 0) by (destruct strack; reflexivity).
    rewrite (getString_rest_advanced ph info rest).
    + unfold ret. cbn [fst snd]. do 3 f_equal.
      solve_len.
    + reflexivity.
    + replace (0 + 1 + 1 + Z.of_nat 2 + 1) with (0 + 5) by lia.
      apply Hrest; [lia|].
      solve_len.
  - unfold bind at 1. unfold bind at 1.
    rewrite (getInt_fixed_advanced statusFlags 2) by lia.
    unfold ret at 1. unfold bind at 1.
    replace (if strack then getString TypeRestOfPacketString 0
             else getString TypeRestOfPacketString 0)
      with (getString TypeRestOfPacketString 0) by (destruct strack; reflexivity).
    rewrite (getString_rest_advanced ph info rest).
    + unfold ret. cbn [fst snd]. do 3 f_equal.
      solve_len.
    + reflexivity.
    + replace (0 + 1 + 1 + Z.of_nat 2) with (0 + 4) by lia.
      apply Hrest; [lia|].
      solve_len.
  - unfold bind at 1. unfold ret at 1. unfold bind at 1.
    replace (if strack then getString TypeRestOfPacketString 0
             else getString TypeRestOfPacketString 0)
      with (getString TypeRestOfPacketString 0) by (destruct strack; reflexivity).
    rewrite (getString_rest_advanced ph info rest).
    + unfold ret. cbn [fst snd]. do 3 f_equal.
      solve_len.
    + reflexivity.
    + replace (0 + 1 + 1) with (0 + 2) by lia.
      apply Hrest; [lia|].
      solve_len.
Qed.

(** X8: an OK packet is decoded by position, and its two length-encoded
    counts are not. For a framed payload of a status byte, two bytes [a] and
    [l], the status fields the negotiated flags call for and an info string,
    [getPacketHeader] followed by [decodeOKPacket] reports the status flags,
    the warnings and the info string as sent, but [AffectedRows] and
    [LastInsertID] are 0 whatever [a] and [l] are, each having taken exactly
    one byte. *)
Theorem decodeOKPacket_frame
  (flags : ClientFlag) (sID : Z) (st a l : byte) (statusFlags : Z) (warnings : byte)
  (info rest : list byte) (c : Conn) :
  let payload := a :: l :: okStatusFields flags statusFlags warnings ++ info in
  let ph := mkPacketHeader (len (st :: payload)) (sID mod 256) (byte_to_Z st) in
  len (st :: payload) < 2 ^ 24 ->
  (h <- getPacketHeader ;; decodeOKPacket flags (fst h))
    (feedClean (frameOf sID (st :: payload) ++ rest) c)
  = Val ((mkOKPacket ph (byte_to_Z st) 0 0
            (if Protocol41 flags || Transactions flags
             then statusFlags mod 2 ^ 16 else 0)
            (if Protocol41 flags then byte_to_Z warnings else 0)
            info [], None),
         advanced (len payload) rest (inPacket ph [] c)).
Proof.
  intros payload ph Hlen.
  unfold bind at 1. rewrite getPacketHeader_frame.
  change (len (_ :: payload)) with (Length ph).
  change (len (_ :: payload)) with (Length ph) in Hlen.
  assert (HL : Length ph = len payload + 1)
    by (unfold ph, len; cbn [Length]; change (length (_ :: payload)) with (S (length payload)); lia).
  assert (Hpos : 0 <= len payload) by (unfold len; lia).
  rewrite (Z.mod_small (Length ph) (2 ^ 24)) by lia.
  change (mkPacketHeader (Length ph) (sID mod 256) (byte_to_Z st)) with ph. cbn [fst].
  exact (decodeOKPacket_body flags ph a l statusFlags warnings info rest c HL Hlen).
Qed.

Lemma decodeOKPacket_frame_witness :
  let flags := mkClientFlag true true false true true in
  let payload := Byte.x07 :: Byte.x00 :: okStatusFields flags 2 Byte.x01
                   ++ bytes_of_string "done" in
  let ph := mkPacketHeader (len (Byte.x00 :: payload)) (2 mod 256) (byte_to_Z Byte.x00) in
  len (Byte.x00 :: payload) < 2 ^ 24 /\
  (h <- getPacketHeader ;; decodeOKPacket flags (fst h))
    (feedClean (frameOf 2 (Byte.x00 :: payload) ++ []) (connOn []))
  = Val ((mkOKPacket ph (byte_to_Z Byte.x00) 0 0
            (if Protocol41 flags || Transactions flags then 2 mod 2 ^ 16 else 0)
            (if Protocol41 flags then byte_to_Z Byte.x01 else 0)
            (bytes_of_string "done") [], None),
         advanced (len payload) [] (inPacket ph [] (connOn []))).
Proof.
  split; [reflexivity|].
  exact (decodeOKPacket_frame (mkClientFlag true true false true true) 2
           Byte.x00 Byte.x07 Byte.x00 2 Byte.x01 (bytes_of_string "done") []
           (connOn []) eq_refl).
Defined.

(** ** Queueing and flushing *)

Lemma write_and_record_queued (b : list byte) (c : Conn) (w : list byte) :
  writeBuf c = Some w ->
  write_and_record b c = Val (uint64 (len b), set_writeBuf (Some (w ++ b)) c).
Proof.
  intros Hw. unfold write_and_record, bind, writeBuf_Write. rewrite Hw. reflexivity.
Qed.

Lemma setup_then_write (b : list byte) (c : Conn) :
  (setupWriteBuffer ;;; write_and_record b) c
  = Val (uint64 (len b), set_writeBuf (Some (accumulated c ++ b)) c).
Proof.
  unfold bind at 1. unfold setupWriteBuffer, modify, accumulated.
  destruct c as [sc bf e sq [w|] ph sp];
    cbn [writeBuf set_writeBuf];
    (erewrite write_and_record_queued by reflexivity); reflexivity.
Qed.

(** X9: the [put] methods only queue. Whenever [putBytes], [putNullBytes],
    [putInt] or [putString] returns, the transport, the sequence counter, the
    held error and the read side are as before, the accumulator has grown at
    its end by the encoded bytes, and the result is their number. *)
Theorem put_only_queues (c : Conn) :
  (forall v, exists c',
      putBytes v c = Val (uint64 (len v), c') /\ queued v c c') /\
  (forall n, exists c',
      putNullBytes n c = Val (uint64 (len (make (Z.to_nat n))), c') /\
      queued (make (Z.to_nat n)) c c') /\
  (forall t v l r c',
      putInt t v l c = Val (r, c') ->
      exists bytes, queued bytes c c' /\ r = uint64 (len bytes)) /\
  (forall t v r c',
      putString t v c = Val (r, c') ->
      exists bytes, queued bytes c c' /\ r = uint64 (len bytes)).
Proof.
  split; [|split; [|split]].
  - intros v. eexists. split; [apply setup_then_write | reflexivity].
  - intros n. eexists. split; [apply setup_then_write | reflexivity].
  - intros t v l r c' H. unfold putInt in H.
    assert (Hgen : forall b,
               (setupWriteBuffer ;;; (x <- ret b ;; write_and_record x)) c = Val (r, c') ->
               exists bytes, queued bytes c c' /\ r = uint64 (len bytes)).
    { intros b Hb. change (x <- ret b ;; write_and_record x) with
        (fun c0 => (x <- ret b ;; write_and_record x) c0) in Hb.
      unfold bind at 1 in Hb. unfold setupWriteBuffer, modify in Hb.
      unfold bind at 1, ret in Hb.
      pose proof (setup_then_write b c) as Hs.
      unfold bind at 1 in Hs. unfold setupWriteBuffer, modify in Hs.
      rewrite Hs in Hb. injection Hb as <- <-. exists b. split; reflexivity. }
    destruct (t =? TypeFixedInt).
    + unfold encFixedLenInt in H. destruct (l <=? 8).
      * apply (Hgen _ H).
      * unfold bind, setupWriteBuffer, modify, lift in H. discriminate.
    + destruct (t =? TypeLenEncInt); apply (Hgen _ H).
  - intros t v r c' H. unfold putString in H.
    unfold bind at 1, ret in H.
    destruct (writeBuf c) as [w|] eqn:Hw.
    + rewrite (write_and_record_queued _ c w Hw) in H. injection H as <- <-.
      eexists. split; [|reflexivity]. unfold queued, accumulated. now rewrite Hw.
    + unfold write_and_record, bind, writeBuf_Write in H. rewrite Hw in H. discriminate.
Qed.

Lemma put_only_queues_witness :
  putInt TypeLenEncInt 300 0 (connOn [])
  = Val (3, set_writeBuf (Some [Byte.xfc; Byte.x2c; Byte.x01]) (connOn [])) /\
  exists bytes,
    queued bytes (connOn []) (set_writeBuf (Some [Byte.xfc; Byte.x2c; Byte.x01]) (connOn []))
    /\ 3 = uint64 (len bytes).
Proof.
  split; [reflexivity|].
  exact (proj1 (proj2 (proj2 (put_only_queues (connOn []))))
           TypeLenEncInt 300 0 3 _ eq_refl).
Defined.

(** X10: [putString] does not set up the write buffer. On a connection
    whose buffer is [nil], as it is on a new connection and after every
    successful flush, [putString] panics on the nil buffer, where the other
    [put] methods queue their bytes. *)
Theorem putString_nil_buffer (t : Z) (v : list byte) (c : Conn) :
  writeBuf c = None ->
  putString t v c = Panic nil_deref /\
  (forall w, ready c ->
     (putBytes w ;;; Flush ;;; putString t v) c = Panic nil_deref).
Proof.
  intros Hw. split.
  - unfold putString, bind, ret, write_and_record, bind, writeBuf_Write.
    now rewrite Hw.
  - intros w Hready.
    destruct (sendPacket_ready w c Hready) as (c1 & Hrun & _ & _ & Hwb & _).
    unfold sendPacket in Hrun.
    unfold bind at 1.
    destruct (putBytes w c) as [[n c0]|e] eqn:Hput.
    + unfold bind at 1 in Hrun. rewrite Hput in Hrun.
      unfold bind at 1. rewrite Hrun.
      unfold putString, bind, ret, write_and_record, bind, writeBuf_Write.
      now rewrite Hwb.
    + unfold bind at 1 in Hrun. rewrite Hput in Hrun. discriminate.
Qed.

Lemma putString_nil_buffer_witness :
  writeBuf (connOn []) = None /\
  putString TypeNullTerminatedString (bytes_of_string "root") (connOn [])
  = Panic nil_deref.
Proof.
  split; [reflexivity|].
  exact (proj1 (putString_nil_buffer TypeNullTerminatedString
                  (bytes_of_string "root") (connOn []) eq_refl)).
Defined.

(** X11: a flush with nothing queued does not send an empty packet: with no
    held error and a [nil] write buffer, [Flush] panics in [addHeader]; so
    does the second of two flushes in a row. *)
Theorem Flush_nothing_queued (c : Conn) :
  err c = None ->
  (writeBuf c = None -> Flush c = Panic nil_deref) /\
  (ready c -> forall w, writeBuf c = Some w -> (Flush ;;; Flush) c = Panic nil_deref).
Proof.
  intros He. split.
  - intros Hw. unfold Flush, bind, get, addHeader, bind, get. rewrite He, Hw. reflexivity.
  - intros (_ & Hh & Hwe & Hd) w Hw.
    destruct c as [sc [h st we dn] e sq wb ph sp]. cbn in *. subst. reflexivity.
Qed.

Lemma Flush_nothing_queued_witness :
  err (connOn []) = None /\ writeBuf (connOn []) = None /\
  Flush (connOn []) = Panic nil_deref.
Proof.
  split; [reflexivity|]. split; [reflexivity|].
  exact (proj1 (Flush_nothing_queued (connOn []) eq_refl) eq_refl).
Defined.

(** X12: a flush that the transport refuses is not undone. It returns the
    transport's error and delivers nothing, but the sequence counter has
    moved on and the accumulator now holds the packet with its header; a
    second flush therefore frames that framed packet again, under the next
    sequence ID, and fails the same way. *)
Theorem Flush_transport_failure (c : Conn) (w : list byte) (e : error) :
  err c = None ->
  writeBuf c = Some w ->
  werr (buffer c) = None ->
  down (buffer c) = Some e ->
  Flush c = Val (Some e, afterFailedFlush e w c) /\
  sent (buffer (afterFailedFlush e w c)) = sent (buffer c) /\
  exists c'',
    Flush (afterFailedFlush e w c) = Val (Some e, c'') /\
    writeBuf c'' = Some (frameOf (uint64 (sequenceID c + 1)) (frameOf (sequenceID c) w)) /\
    sequenceID c'' = uint64 (uint64 (sequenceID c + 1) + 1) /\
    sent (buffer c'') = sent (buffer c).
Proof.
  intros He Hw Hwe Hd.
  destruct c as [sc [h st we dn] e0 sq wb ph sp]. cbn in *. subst.
  split; [reflexivity|]. split; [reflexivity|].
  eexists. split; [reflexivity|]. repeat split.
Qed.

Lemma Flush_transport_failure_witness :
  let c := set_writeBuf (Some [Byte.x0e])
             (set_buffer (mkWriter [] [] None (Some "broken pipe"%string)) (connOn [])) in
  err c = None /\ writeBuf c = Some [Byte.x0e] /\ werr (buffer c) = None /\
  down (buffer c) = Some "broken pipe"%string /\
  Flush c = Val (Some "broken pipe"%string,
                 afterFailedFlush "broken pipe"%string [Byte.x0e] c).
Proof.
  cbv zeta. repeat (split; [reflexivity|]).
  exact (proj1 (Flush_transport_failure
                  (set_writeBuf (Some [Byte.x0e])
                     (set_buffer (mkWriter [] [] None (Some "broken pipe"%string)) (connOn [])))
                  [Byte.x0e] "broken pipe"%string eq_refl eq_refl eq_refl eq_refl)).
Defined.

(** ** Length-encoded strings *)

(** X13: a string of fewer than 255 bytes is written as one length byte
    followed by its bytes, and one of 255 to 65534 bytes as [0xFC], a
    two-byte length and its bytes. Read back as a length-encoded string, it
    does not come out again: [getString] takes the first byte only and
    returns the one-byte string made of a null byte, leaving the rest,
    the string included, on the transport. *)
Theorem encLenEncString_getString (v rest : list byte) (k l : Z) (c : Conn) :
  (len v < 255 -> encLenEncString v = byte_of_Z (len v) :: v) /\
  (255 <= len v < 65535 ->
   encLenEncString v = Byte.xfc :: le_bytes 2 (len v) ++ v) /\
  (len v < 65535 ->
   exists b tail,
     encLenEncString v = b :: tail /\
     getString TypeLenEncString l (advanced k (encLenEncString v ++ rest) c)
     = Val ([NullByte], advanced (k + 1) (tail ++ rest) c)).
Proof.
  assert (Hpos : 0 <= len v) by (unfold len; lia).
  assert (Hread : forall b tail,
             getString TypeLenEncString l (advanced k ((b :: tail) ++ rest) c)
             = Val ([NullByte], advanced (k + 1) (tail ++ rest) c)).
  { intros b tail. cbn [app].
    change (getString TypeLenEncString l) with (v0 <- decLenEncInt ;; ret (runeString v0)).
    unfold bind at 1.
    pose proof (getInt_lenenc_advanced b (tail ++ rest) k 0 c) as H.
    change (getInt TypeLenEncInt 0) with decLenEncInt in H. rewrite H. reflexivity. }
  assert (Hsmall : len v < 255 -> encLenEncString v = byte_of_Z (len v) :: v).
  { intros Hv. unfold encLenEncString, encFixedString, uint64, uint.
    rewrite Z.mod_small by (change (2 ^ 64) with 18446744073709551616; lia).
    rewrite (proj1 (encLenEncInt_ranges (len v))) by lia. reflexivity. }
  assert (Hmid : 255 <= len v < 65535 ->
                 encLenEncString v = Byte.xfc :: le_bytes 2 (len v) ++ v).
  { intros Hv. unfold encLenEncString, encFixedString, uint64, uint.
    rewrite Z.mod_small by (change (2 ^ 64) with 18446744073709551616; lia).
    rewrite (proj1 (proj2 (encLenEncInt_ranges (len v)))) by lia. reflexivity. }
  split; [exact Hsmall|]. split; [exact Hmid|].
  intros Hv. destruct (Z.lt_ge_cases (len v) 255) as [Hlt|Hge].
  - exists (byte_of_Z (len v)), v. rewrite (Hsmall Hlt). split; [reflexivity|apply Hread].
  - exists Byte.xfc, (le_bytes 2 (len v) ++ v).
    rewrite (Hmid (conj Hge Hv)). split; [reflexivity|apply Hread].
Qed.

Lemma encLenEncString_getString_witness :
  len (bytes_of_string "binlog") < 255 /\
  encLenEncString (bytes_of_string "binlog") = byte_of_Z 6 :: bytes_of_string "binlog".
Proof.
  split; [reflexivity|].
  exact (proj1 (encLenEncString_getString (bytes_of_string "binlog") [] 0 0 (connOn []))
           eq_refl).
Defined.

(** ** Capability bitmasks at the edges *)

Lemma uint_flag_out (w i : Z) : 0 <= w <= i -> uint w (Z.shiftl 1 i) = 0.
Proof.
  intros Hi. unfold uint. rewrite Z.shiftl_1_l.
  replace i with (w + (i - w)) by lia.
  rewrite Z.pow_add_r by lia. rewrite Z.mul_comm. apply Z_mod_mult.
Qed.

Lemma bitmaskFields_nth (b : list byte) (n : nat) :
  forall i fields,
    bitmaskFields b i n = Val fields ->
    length fields = n /\
    forall j, (j < n)%nat -> bitmaskField b (i + Z.of_nat j) = Val (nth j fields false).
Proof.
  induction n as [|n IH]; intros i fields H.
  - cbn in H. injection H as <-. split; [reflexivity|]. intros j Hj. lia.
  - cbn [bitmaskFields] in H.
    destruct (bitmaskField b i) as [v|e] eqn:Hv; [|discriminate].
    destruct (bitmaskFields b (i + 1) n) as [r|e] eqn:Hr; [|discriminate].
    injection H as <-. destruct (IH _ _ Hr) as [Hlen Hnth].
    split; [cbn; now rewrite Hlen|].
    intros [|j] Hj.
    + now rewrite Z.add_0_r.
    + cbn [nth]. rewrite <- Hnth by lia. f_equal. lia.
Qed.

Lemma bitmaskField_beyond (b : list byte) (i : Z) (v : bool) :
  8 * len b <= i ->
  bitmaskField b i = Val v -> v = false.
Proof.
  unfold bitmaskField, Uint, len. intros Hi H.
  destruct (Z.ltb_spec 4 (Z.of_nat (length b))) as [H4|H4];
    [|destruct (Z.ltb_spec 2 (Z.of_nat (length b))) as [H2|H2];
      [|destruct (Z.ltb_spec 1 (Z.of_nat (length b))) as [H1|H1]]].
  - destruct (Nat.ltb_spec (length b) 8); [discriminate|].
    injection H as <-. unfold uint64. rewrite uint_flag_out by lia.
    now rewrite Z.land_0_r.
  - destruct (Nat.ltb_spec (length b) 4); [discriminate|].
    injection H as <-. unfold uint32. rewrite uint_flag_out by lia.
    now rewrite Z.land_0_r.
  - destruct (Nat.ltb_spec (length b) 2); [discriminate|].
    injection H as <-. unfold uint16. rewrite uint_flag_out by lia.
    now rewrite Z.land_0_r.
  - destruct b as [|b0 b]; [discriminate|]. injection H as <-.
    assert (length b = 0%nat) by (cbn [length] in H1; lia).
    destruct (Z.lt_ge_cases i 64) as [Hlt|Hge].
    + unfold uint64. rewrite uint_flag, land_flag by (cbn [length] in Hi; lia).
      pose proof (byte_to_Z_range b0) as Hb.
      rewrite <- (Z.mod_small (byte_to_Z b0) (2 ^ 8)) by (change (2 ^ 8) with 256; lia).
      apply Z.mod_pow2_bits_high. cbn [length] in Hi. lia.
    + unfold uint64. rewrite uint_flag_out by lia. now rewrite Z.land_0_r.
Qed.

(** X14: [bitmaskToStruct] can only set the fields its mask has bits for.
    With a mask of 0, 3, 5, 6 or 7 bytes and at least one field it panics on
    an index out of range; whenever it returns, every field at position
    [8 * len b] or beyond is false. *)
Theorem bitmaskToStruct_width (b : list byte) (numField : nat) :
  (In (length b) [0; 3; 5; 6; 7]%nat ->
   bitmaskToStruct b (S numField) = Panic index_out_of_range) /\
  (forall fields,
     bitmaskToStruct b numField = Val fields ->
     length fields = numField /\
     forall j, (8 * length b <= j)%nat -> nth j fields false = false).
Proof.
  split.
  - intros Hin. unfold bitmaskToStruct. cbn [bitmaskFields].
    assert (Hf : bitmaskField b 0 = Panic index_out_of_range).
    { unfold bitmaskField, Uint, len. cbn in Hin.
      destruct Hin as [E|[E|[E|[E|[E|[]]]]]]; rewrite <- E; cbn;
        try reflexivity.
      destruct b; [reflexivity | discriminate]. }
    now rewrite Hf.
  - intros fields H. unfold bitmaskToStruct in H.
    destruct (bitmaskFields_nth b numField 0 fields H) as [Hlen Hnth].
    split; [exact Hlen|]. intros j Hj.
    destruct (Nat.lt_ge_cases j numField) as [Hlt|Hge].
    + apply (bitmaskField_beyond b (0 + Z.of_nat j)); [unfold len; lia|].
      now apply Hnth.
    + apply nth_overflow. lia.
Qed.

Lemma bitmaskToStruct_width_witness :
  In (length [Byte.xff; Byte.xff; Byte.xff]) [0; 3; 5; 6; 7]%nat /\
  bitmaskToStruct [Byte.xff; Byte.xff; Byte.xff] (S 19) = Panic index_out_of_range.
Proof.
  split; [cbn; tauto|].
  apply (proj1 (bitmaskToStruct_width [Byte.xff; Byte.xff; Byte.xff] 19)).
  cbn; tauto.
Defined.

Lemma maskLoop_high (s : list bool) :
  forall i m, 64 <= i -> maskLoop i s m = m.
Proof.
  induction s as [|v r IH]; intros i m Hi; [reflexivity|].
  cbn [maskLoop]. rewrite IH by lia.
  destruct v; [|reflexivity].
  unfold uint64. rewrite uint_flag_out by lia. apply Z.lor_0_r.
Qed.

Lemma maskLoop_app (s : list bool) :
  forall e i m, maskLoop i (s ++ e) m = maskLoop (i + len s) e (maskLoop i s m).
Proof.
  induction s as [|v r IH]; intros e i m.
  - cbn [app maskLoop]. unfold len. cbn. now rewrite Z.add_0_r.
  - cbn [app maskLoop]. rewrite IH. f_equal. unfold len. cbn [length]. lia.
Qed.

(** X15: [structToBitmask] keeps 64 fields at most. For a struct of more
    than 64 boolean fields the mask is the eight bytes of its first 64
    fields: the later fields leave no trace. *)
Theorem structToBitmask_beyond_64 (s extra : list bool) :
  length s = 64%nat ->
  len (s ++ extra) < 2 ^ 63 ->
  structToBitmask (s ++ extra) = structToBitmask s /\
  length (structToBitmask (s ++ extra)) = 8%nat.
Proof.
  intros Hs Hlen.
  assert (E : structToBitmask (s ++ extra) = structToBitmask s).
  { unfold structToBitmask.
    rewrite maskLoop_app, (maskLoop_high extra) by (unfold len; lia).
    unfold ceil8, len in *. rewrite length_app in *. rewrite Hs in *.
    set (n := length extra) in *.
    pose proof (Z.div_mod (Z.of_nat (64 + n) + 7) 8 ltac:(lia)) as Hdm.
    pose proof (Z.mod_pos_bound (Z.of_nat (64 + n) + 7) 8 ltac:(lia)) as Hmb.
    set (q := (Z.of_nat (64 + n) + 7) / 8) in *.
    unfold uint64, uint.
    change (2 ^ 63) with 9223372036854775808 in Hlen.
    rewrite (Z.mod_small q) by (change (2 ^ 64) with 18446744073709551616; lia).
    destruct (Z.ltb_spec 4 q); [|lia].
    reflexivity. }
  split; [exact E|]. rewrite E.
  rewrite structToBitmask_le_bytes by (unfold len; lia).
  rewrite length_le_bytes, Hs. reflexivity.
Qed.

Lemma structToBitmask_beyond_64_witness :
  length (repeat false 64) = 64%nat /\
  len (repeat false 64 ++ [true; true]) < 2 ^ 63 /\
  structToBitmask (repeat false 64 ++ [true; true]) = structToBitmask (repeat false 64).
Proof.
  split; [reflexivity|]. split; [reflexivity|].
  exact (proj1 (structToBitmask_beyond_64 (repeat false 64) [true; true] eq_refl eq_refl)).
Defined.

(** ** The scrambles as a challenge and response *)

Lemma xor_byte_cancel (x y : byte) : xor_byte (xor_byte x y) y = x.
Proof.
  unfold xor_byte. rewrite byte_to_of_Z.
  rewrite <- (byte_of_to_Z x) at 2. apply byte_of_Z_congr.
  change 256 with (2 ^ 8). apply Z.bits_inj'. intros i Hi.
  rewrite !Z.testbit_mod_pow2 by lia.
  destruct (Z.ltb_spec i 8) as [Hlt|Hge]; [|reflexivity].
  cbn [andb]. rewrite Z.lxor_spec, Z.testbit_mod_pow2 by lia.
  replace (i <? 8) with true by (symmetry; apply Z.ltb_lt; lia).
  cbn [andb]. rewrite Z.lxor_spec.
  destruct (Z.testbit (byte_to_Z x) i), (Z.testbit (byte_to_Z y) i); reflexivity.
Qed.

Lemma xorBytes_cancel (p : list byte) :
  forall q, length p = length q -> xorBytes (xorBytes p q) q = p.
Proof.
  induction p as [|x p IH]; intros [|y q] H; try discriminate; [reflexivity|].
  unfold xorBytes in *. cbn [combine map fst snd].
  rewrite xor_byte_cancel. f_equal. apply IH. now injection H.
Qed.

(** X16: the native scramble answers its challenge. For a non-empty
    password [nativeSha1Auth] returns the 20 bytes
    [SHA1(password) XOR SHA1(salt ++ SHA1(SHA1(password)))], and a verifier
    that holds [SHA1(SHA1(password))] recovers from them a value whose SHA-1
    is what it holds. The revision without the empty-password guard returns
    the same bytes. *)
Theorem nativeSha1Auth_verifies (salt : list byte) (p : byte) (ps : list byte) :
  let password := p :: ps in
  let stored := sha1Hash (sha1Hash password) in
  let mask := sha1Hash (salt ++ stored) in
  nativeSha1Auth salt password = Val (xorBytes (sha1Hash password) mask) /\
  Authentication.nativeSha1Auth salt password = nativeSha1Auth salt password /\
  length (xorBytes (sha1Hash password) mask) = 20%nat /\
  sha1Hash (xorBytes (xorBytes (sha1Hash password) mask) mask) = stored.
Proof.
  intros password stored mask.
  assert (H : nativeSha1Auth salt password = Val (xorBytes (sha1Hash password) mask)).
  { unfold nativeSha1Auth.
    replace (len password <? 1) with false
      by (symmetry; apply Z.ltb_ge; unfold password, len; cbn [length]; lia).
    cbv zeta. apply xorInto_within. unfold mask. now rewrite !length_sha1Hash. }
  split; [exact H|]. split; [|split].
  - rewrite H. unfold Authentication.nativeSha1Auth. cbv zeta.
    apply xorInto_within. unfold mask. now rewrite !length_sha1Hash.
  - rewrite length_xorBytes; unfold mask; now rewrite !length_sha1Hash.
  - rewrite xorBytes_cancel; [reflexivity|].
    unfold mask. now rewrite !length_sha1Hash.
Qed.

(** ** Reading past the end of a packet *)



(** ** The auth switch request and its answer *)

Lemma feed_advanced (k : Z) (bs : list byte) (c : Conn) :
  feed bs (advanced k [] c) = advanced k bs c.
Proof. destruct c as [[p flt] w e sq wb ph sp]. reflexivity. Qed.

Lemma decNullTerminatedString_advanced (s rest : list byte) (k : Z) (c : Conn) :
  Forall (fun y => y <> NullByte) s ->
  getString TypeNullTerminatedString 0 (advanced k (s ++ NullByte :: rest) c)
  = Val (s, advanced (k + (len s + 1)) rest c).
Proof.
  intros Hs.
  change (getString TypeNullTerminatedString 0) with decNullTerminatedString.
  rewrite <- feed_advanced.
  rewrite (decNullTerminatedString_feed s rest (advanced k [] c) Hs).
  now rewrite advanced_advanced.
Qed.

Lemma Err_advanced_clean (k : Z) (bs : list byte) (c : Conn) :
  fault (scanner c) = None -> Err (scanner (advanced k bs c)) = None.
Proof. intros H. unfold Err. cbn. rewrite H. destruct bs; reflexivity. Qed.

(** X18: the auth switch request is decoded field by field. From a clean
    transport that delivers a three-byte length, a sequence byte, a status
    byte, a plugin name without null bytes, its terminator and 20 bytes of
    salt, [decodeAuthResponsePacket] returns exactly these, with no error,
    and leaves what follows on the transport. *)
Theorem decodeAuthResponsePacket_fields
  (L : Z) (sq st : byte) (name salt rest : list byte) (c : Conn) :
  Forall (fun y => y <> NullByte) name ->
  length salt = 20%nat ->
  let wire := le_bytes 3 L ++ sq :: st :: name ++ NullByte :: salt ++ rest in
  decodeAuthResponsePacket (feedClean wire c)
  = Val ((Some (mkAuthResponsePacket (L mod 2 ^ 24) (byte_to_Z sq) (byte_to_Z st)
                                     name salt), None),
         advanced (3 + 1 + 1 + (len name + 1) + 20) rest (feedClean wire c)).
Proof.
  intros Hname Hsalt wire. unfold decodeAuthResponsePacket.
  unfold bind at 1.
  rewrite (decFixedInt_at L 3 (sq :: st :: name ++ NullByte :: salt ++ rest))
    by (try lia; reflexivity).
  unfold bind at 1. rewrite getInt_byte_advanced.
  unfold bind at 1. rewrite getInt_byte_advanced.
  unfold bind at 1. rewrite decNullTerminatedString_advanced by exact Hname.
  unfold bind at 1.
  replace 20 with (len salt) at 1 by (unfold len; rewrite Hsalt; reflexivity).
  rewrite readBytes_advanced.
  unfold bind, get. rewrite Err_advanced_clean by reflexivity.
  unfold ret. do 3 f_equal. unfold len. rewrite Hsalt. reflexivity.
Qed.

Lemma decodeAuthResponsePacket_fields_witness :
  Forall (fun y => y <> NullByte) (bytes_of_string "mysql_native_password") /\
  length salt20 = 20%nat /\
  decodeAuthResponsePacket
    (feedClean (le_bytes 3 44 ++ Byte.x02 :: Byte.xfe
                  :: bytes_of_string "mysql_native_password" ++ NullByte :: salt20 ++ [])
       (connOn []))
  = Val ((Some (mkAuthResponsePacket (44 mod 2 ^ 24) (byte_to_Z Byte.x02)
                  (byte_to_Z Byte.xfe) (bytes_of_string "mysql_native_password")
                  salt20), None),
         advanced (3 + 1 + 1 + (len (bytes_of_string "mysql_native_password") + 1) + 20) []
           (feedClean (le_bytes 3 44 ++ Byte.x02 :: Byte.xfe
                         :: bytes_of_string "mysql_native_password" ++ NullByte
                         :: salt20 ++ [])
              (connOn []))).
Proof.
  assert (H : Forall (fun y => y <> NullByte) (bytes_of_string "mysql_native_password"))
    by (repeat constructor; discriminate).
  split; [exact H|]. split; [reflexivity|].
  exact (decodeAuthResponsePacket_fields 44 Byte.x02 Byte.xfe
           (bytes_of_string "mysql_native_password") salt20 [] (connOn []) H eq_refl).
Defined.

Lemma Val_inj (A : Type) (a b : A) : Val a = Val b -> a = b.
Proof. intros H. now injection H. Qed.

Lemma pluginResponse_length (name : string) (salt password ar : list byte) :
  pluginResponse name salt password = Val ar ->
  In (length ar) [0; 20; 32]%nat.
Proof.
  unfold pluginResponse, nativeSha1Auth, cachingSha2Auth.
  destruct (String.eqb name "mysql_native_password").
  - destruct (len password <? 1).
    + intros H. apply Val_inj in H. subst ar. left. reflexivity.
    + cbv zeta.
      rewrite xorInto_within by (rewrite !length_sha1Hash; apply Nat.le_refl).
      intros H. apply Val_inj in H. subst ar.
      rewrite length_xorBytes by (rewrite !length_sha1Hash; reflexivity).
      rewrite length_sha1Hash. right. left. reflexivity.
  - destruct (String.eqb name "caching_sha2_password").
    + destruct (len password <? 1).
      * intros H. apply Val_inj in H. subst ar. left. reflexivity.
      * cbv zeta.
        rewrite xorInto_within by (rewrite !length_sha256Hash; apply Nat.le_refl).
        intros H. apply Val_inj in H. subst ar.
        rewrite length_xorBytes by (rewrite !length_sha256Hash; reflexivity).
        rewrite length_sha256Hash. right. right. left. reflexivity.
    + intros H. apply Val_inj in H. subst ar. left. reflexivity.
Qed.

Lemma putInt_lenenc (v l : Z) (c : Conn) :
  putInt TypeLenEncInt v l c
  = Val (uint64 (len (encLenEncInt v)),
         set_writeBuf (Some (accumulated c ++ encLenEncInt v)) c).
Proof.
  pose proof (setup_then_write (encLenEncInt v) c) as H.
  unfold putInt. unfold bind at 1 in H. unfold bind at 1.
  destruct (setupWriteBuffer c) as [[u c0]|e]; [|discriminate].
  exact H.
Qed.

Lemma putInt_fixed1 (v : Z) (c : Conn) :
  putInt TypeFixedInt v 1 c
  = Val (1, set_writeBuf (Some (accumulated c ++ [byte_of_Z v])) c).
Proof.
  pose proof (setup_then_write [byte_of_Z v] c) as H.
  unfold putInt. unfold bind at 1 in H. unfold bind at 1.
  destruct (setupWriteBuffer c) as [[u c0]|e]; [|discriminate].
  exact H.
Qed.

Lemma putBytes_queued (v : list byte) (c : Conn) :
  putBytes v c = Val (uint64 (len v), set_writeBuf (Some (accumulated c ++ v)) c).
Proof. apply setup_then_write. Qed.

Lemma reslice_within (n : nat) (s spare : list byte) :
  (n <= length s)%nat -> reslice n s spare = Val (firstn n s).
Proof.
  intros Hn. unfold reslice.
  destruct (Nat.leb_spec n (length s + length spare)); [|lia].
  rewrite firstn_app. replace (n - length s)%nat with 0%nat by lia.
  cbn [firstn]. now rewrite app_nil_r.
Qed.

Lemma authenticate_run
  (name : string) (flags : ClientFlag) (salt spare password ar : list byte) (c : Conn) :
  (20 <= length salt)%nat ->
  PluginAuthLenEncClientData flags = true \/ SecureConnection flags = true ->
  pluginResponse name (firstn 20 salt) password = Val ar ->
  In (length ar) [0; 20; 32]%nat /\
  authenticate name flags salt spare password c
  = Val (len ar, set_writeBuf (Some (accumulated c ++ byte_of_Z (len ar) :: ar)) c).
Proof.
  intros Hsalt Hflags Har.
  pose proof (pluginResponse_length _ _ _ _ Har) as Hlen.
  split; [exact Hlen|].
  unfold authenticate. unfold bind at 1.
  rewrite reslice_within by exact Hsalt. cbn [lift].
  unfold bind at 1. rewrite Har. cbn [lift].
  assert (Hu : uint64 (len ar) = len ar).
  { unfold uint64, uint, len. apply Z.mod_small.
    cbn in Hlen. destruct Hlen as [E|[E|[E|[]]]]; rewrite <- E; cbv; split; congruence. }
  rewrite Hu.
  assert (Henc : encLenEncInt (len ar) = [byte_of_Z (len ar)]).
  { unfold len. cbn in Hlen. destruct Hlen as [E|[E|[E|[]]]]; rewrite <- E; reflexivity. }
  assert (Hacc : forall b,
             accumulated (set_writeBuf (Some (accumulated c ++ b)) c) = accumulated c ++ b)
    by (intros b; destruct c; reflexivity).
  assert (Hset : forall b1 b2,
             set_writeBuf (Some b2) (set_writeBuf (Some b1) c) = set_writeBuf (Some b2) c)
    by (intros; destruct c; reflexivity).
  destruct (PluginAuthLenEncClientData flags) eqn:Hp.
  - unfold bind at 1. unfold bind at 1.
    rewrite putInt_lenenc, putBytes_queued, Henc, Hacc, Hset.
    unfold ret. rewrite <- app_assoc. reflexivity.
  - destruct Hflags as [Hf|Hf]; [discriminate|]. rewrite Hf.
    unfold bind at 1. unfold bind at 1.
    rewrite putInt_fixed1, putBytes_queued, Hacc, Hset.
    unfold ret. rewrite <- app_assoc. reflexivity.
Qed.

(** X19: with the [PluginAuthLenEncClientData] or the [SecureConnection]
    flag, [authenticate] queues one length byte followed by the plugin's
    response, which is 0, 20 or 32 bytes long, and returns that length. Of a
    salt of 20 bytes or more only the first 20 are used: any other salt with
    the same first 20 bytes, over any backing array, gives the same result. *)
Theorem authenticate_queues_response
  (name : string) (flags : ClientFlag) (salt spare password ar : list byte) (c : Conn) :
  (20 <= length salt)%nat ->
  PluginAuthLenEncClientData flags = true \/ SecureConnection flags = true ->
  pluginResponse name (firstn 20 salt) password = Val ar ->
  In (length ar) [0; 20; 32]%nat /\
  authenticate name flags salt spare password c
  = Val (len ar, set_writeBuf (Some (accumulated c ++ byte_of_Z (len ar) :: ar)) c) /\
  forall more spare',
    authenticate name flags (firstn 20 salt ++ more) spare' password c
    = authenticate name flags salt spare password c.
Proof.
  intros Hsalt Hflags Har.
  destruct (authenticate_run name flags salt spare password ar c Hsalt Hflags Har)
    as [Hlen Hrun].
  split; [exact Hlen|]. split; [exact Hrun|].
  intros more spare'. rewrite Hrun.
  assert (H20 : length (firstn 20 salt) = 20%nat) by (apply firstn_length_le; exact Hsalt).
  assert (Hpre : firstn 20 (firstn 20 salt ++ more) = firstn 20 salt).
  { rewrite firstn_app, H20, firstn_firstn. cbn [Nat.sub Nat.min firstn].
    now rewrite app_nil_r. }
  apply authenticate_run.
  - rewrite length_app, H20. lia.
  - exact Hflags.
  - rewrite Hpre. exact Har.
Qed.

Lemma authenticate_queues_response_witness :
  let flags := mkClientFlag true true false true true in
  (20 <= length salt20)%nat /\
  (PluginAuthLenEncClientData flags = true \/ SecureConnection flags = true) /\
  pluginResponse "unknown_plugin" (firstn 20 salt20) (bytes_of_string "secret") = Val [] /\
  authenticate "unknown_plugin" flags salt20 [] (bytes_of_string "secret") (connOn [])
  = Val (len (@nil byte),
         set_writeBuf (Some (accumulated (connOn []) ++ byte_of_Z (len (@nil byte)) :: []))
           (connOn [])).
Proof.
  cbv zeta. split; [cbn; lia|]. split; [left; reflexivity|]. split; [reflexivity|].
  refine (proj1 (proj2 (authenticate_queues_response "unknown_plugin"
           (mkClientFlag true true false true true) salt20 []
           (bytes_of_string "secret") [] (connOn []) _ (or_introl eq_refl) eq_refl))).
  cbn; lia.
Defined.

Lemma Flush_ready (w : list byte) (c : Conn) :
  ready c -> Flush (set_writeBuf (Some w) c) = Val (None, afterFlush w c).
Proof.
  intros (He & Hh & Hw & Hd).
  destruct c as [sc [h st we dn] e s wb ph sp]. cbn in He, Hh, Hw, Hd. subst.
  reflexivity.
Qed.

(** X20: the answer to an auth switch request goes out as one packet. On a
    ready connection, with either length flag, [writeAuthSwitchPacket] sends
    what was queued followed by one length byte and the plugin's response,
    under the current sequence ID, advances the counter by one and leaves
    the accumulator empty. *)
Theorem writeAuthSwitchPacket_sends
  (name : string) (flags : ClientFlag) (salt spare password ar : list byte) (c : Conn) :
  ready c ->
  (20 <= length salt)%nat ->
  PluginAuthLenEncClientData flags = true \/ SecureConnection flags = true ->
  pluginResponse name (firstn 20 salt) password = Val ar ->
  writeAuthSwitchPacket name flags salt spare password c
  = Val (None, afterFlush (accumulated c ++ byte_of_Z (len ar) :: ar) c).
Proof.
  intros Hready Hsalt Hflags Har.
  unfold writeAuthSwitchPacket. unfold bind at 1.
  rewrite (proj2 (authenticate_run name flags salt spare password ar c Hsalt Hflags Har)).
  unfold bind at 1. rewrite Flush_ready by exact Hready. reflexivity.
Qed.

Lemma writeAuthSwitchPacket_sends_witness :
  let flags := mkClientFlag true true false false true in
  ready (connOn []) /\
  (20 <= length salt20)%nat /\
  (PluginAuthLenEncClientData flags = true \/ SecureConnection flags = true) /\
  pluginResponse "mysql_native_password" (firstn 20 salt20) [] = Val [] /\
  writeAuthSwitchPacket "mysql_native_password" flags salt20 [] [] (connOn [])
  = Val (None, afterFlush (accumulated (connOn []) ++ byte_of_Z (len (@nil byte)) :: [])
                 (connOn [])).
Proof.
  assert (Hc : ready (connOn [])) by (repeat split).
  assert (Hs : (20 <= length salt20)%nat) by (cbn; lia).
  cbv zeta. split; [exact Hc|]. split; [exact Hs|].
  split; [right; reflexivity|]. split; [reflexivity|].
  exact (writeAuthSwitchPacket_sends "mysql_native_password"
           (mkClientFlag true true false false true) salt20 [] [] [] (connOn [])
           Hc Hs (or_intror eq_refl) eq_refl).
Defined.

(** ** The dispatcher *)

Lemma Err_inPacket (ph : PacketHeader) (bs : list byte) (c : Conn) :
  Err (scanner (inPacket ph bs c)) = None.
Proof. unfold Err. cbn. destruct bs; reflexivity. Qed.

(** X21: a packet with an unrecognised status byte is dropped half read.
    Whatever continuation decoder, password and flags the dispatcher is
    given, for a framed packet whose status byte is none of [0x00], [0x01],
    [0xFE], [0xFF] it returns no packet and no error, having consumed the
    header and the status byte only: the rest of the payload stays on the
    transport, where the next header will be read from. *)
Theorem readPacket_unknown_status
  (AuthData : Type) (AuthData_eqb : AuthData -> AuthData -> bool)
  (fast publicKey fullAuth : AuthData)
  (decodeAuthMoreData : PacketHeader -> M (AuthData * option error))
  (Pass : list byte) (flags : ClientFlag)
  (sID : Z) (st : byte) (payload rest : list byte) (c : Conn) :
  ~ In (byte_to_Z st) [StatusOK; StatusAuth; StatusEOF; StatusErr] ->
  let ph := mkPacketHeader (len (st :: payload) mod 2 ^ 24) (sID mod 256)
                           (byte_to_Z st) in
  readPacket AuthData AuthData_eqb fast publicKey fullAuth decodeAuthMoreData Pass flags
    (feedClean (frameOf sID (st :: payload) ++ rest) c)
  = Val ((NoPacket, None), inPacket ph (payload ++ rest) c).
Proof.
  intros Hst ph. unfold readPacket.
  unfold bind at 1. rewrite getPacketHeader_frame. cbn [fst snd Status].
  assert (H1 : (byte_to_Z st =? StatusAuth) = false)
    by (apply Z.eqb_neq; intros E; apply Hst; rewrite E; cbn; tauto).
  assert (H2 : (byte_to_Z st =? StatusEOF) = false)
    by (apply Z.eqb_neq; intros E; apply Hst; rewrite E; cbn; tauto).
  assert (H3 : (byte_to_Z st =? StatusOK) = false)
    by (apply Z.eqb_neq; intros E; apply Hst; rewrite E; cbn; tauto).
  assert (H4 : (byte_to_Z st =? StatusErr) = false)
    by (apply Z.eqb_neq; intros E; apply Hst; rewrite E; cbn; tauto).
  rewrite H1, H2, H3, H4. cbn [orb].
  unfold bind, get. rewrite Err_inPacket. reflexivity.
Qed.

Lemma readPacket_unknown_status_witness :
  ~ In (byte_to_Z Byte.x05) [StatusOK; StatusAuth; StatusEOF; StatusErr] /\
  readPacket Z Z.eqb 3 2 4 (fun _ => ret (0, None)) [] (mkClientFlag true true false true true)
    (feedClean (frameOf 1 (Byte.x05 :: [Byte.x2a]) ++ []) (connOn []))
  = Val ((NoPacket, None),
         inPacket (mkPacketHeader (len (Byte.x05 :: [Byte.x2a]) mod 2 ^ 24) (1 mod 256)
                                  (byte_to_Z Byte.x05))
                  ([Byte.x2a] ++ []) (connOn [])).
Proof.
  assert (H : ~ In (byte_to_Z Byte.x05) [StatusOK; StatusAuth; StatusEOF; StatusErr])
    by (cbn; intros [E|[E|[E|[E|[]]]]]; discriminate).
  split; [exact H|].
  exact (readPacket_unknown_status Z Z.eqb 3 2 4 (fun _ => ret (0, None)) []
           (mkClientFlag true true false true true) 1 Byte.x05 [Byte.x2a] [] (connOn []) H).
Defined.

(** X22: a server error comes back as a packet and an error. For a framed
    error packet the dispatcher returns the decoded packet together with the
    error [error CODE: MESSAGE], the code in decimal, and stops at the end of
    the packet. *)
Theorem readPacket_error
  (AuthData : Type) (AuthData_eqb : AuthData -> AuthData -> bool)
  (fast publicKey fullAuth : AuthData)
  (decodeAuthMoreData : PacketHeader -> M (AuthData * option error))
  (Pass : list byte) (flags : ClientFlag)
  (sID code : Z) (marker : byte) (state msg rest : list byte) (c : Conn) :
  length state = 5%nat ->
  len msg + 9 < 2 ^ 24 ->
  let payload := le_bytes 2 code ++ marker :: state ++ msg in
  let ph := mkPacketHeader (len (Byte.xff :: payload)) (sID mod 256) StatusErr in
  readPacket AuthData AuthData_eqb fast publicKey fullAuth decodeAuthMoreData Pass flags
    (feedClean (frameOf sID (Byte.xff :: payload) ++ rest) c)
  = Val ((AnErrorPacket (mkErrorPacket ph (code mod 2 ^ 16) msg [marker] state),
          Some (errorf (code mod 2 ^ 16) msg)),
         advanced (len payload) rest (inPacket ph [] c)).
Proof.
  intros Hstate Hlen payload ph.
  assert (Hpl : len payload = 8 + len msg).
  { unfold payload, len. rewrite !length_app. cbn [length].
    rewrite length_app, length_le_bytes, Hstate. lia. }
  assert (Hmsg : 0 <= len msg) by (unfold len; lia).
  rewrite Hpl. unfold readPacket.
  unfold bind at 1. rewrite getPacketHeader_frame.
  assert (Hfull : Length ph = 8 + len msg + 1).
  { unfold ph, len in *. cbn [Length].
    change (length (_ :: payload)) with (S (length payload)). lia. }
  change (len (_ :: payload)) with (Length ph).
  rewrite (Z.mod_small (Length ph) (2 ^ 24)) by lia.
  change (byte_to_Z Byte.xff) with StatusErr.
  change (mkPacketHeader (Length ph) (sID mod 256) StatusErr) with ph.
  cbn [fst snd].
  change (Status ph =? StatusAuth) with false.
  change ((Status ph =? StatusEOF) || (Status ph =? StatusOK)) with false.
  change (Status ph =? StatusErr) with true. cbv iota.
  unfold bind at 1. unfold payload.
  rewrite decodeErrorPacket_body by assumption. reflexivity.
Qed.

Lemma readPacket_error_witness :
  length (bytes_of_string "28000") = 5%nat /\
  len (bytes_of_string "Access denied") + 9 < 2 ^ 24 /\
  errorf (1045 mod 2 ^ 16) (bytes_of_string "Access denied")
  = "error 1045: Access denied"%string /\
  let payload := le_bytes 2 1045 ++ Byte.x23 :: bytes_of_string "28000"
                   ++ bytes_of_string "Access denied" in
  let ph := mkPacketHeader (len (Byte.xff :: payload)) (2 mod 256) StatusErr in
  readPacket Z Z.eqb 3 2 4 (fun _ => ret (0, None)) [] (mkClientFlag true true false true true)
    (feedClean (frameOf 2 (Byte.xff :: payload) ++ []) (connOn []))
  = Val ((AnErrorPacket (mkErrorPacket ph (1045 mod 2 ^ 16)
                           (bytes_of_string "Access denied") [Byte.x23]
                           (bytes_of_string "28000")),
          Some (errorf (1045 mod 2 ^ 16) (bytes_of_string "Access denied"))),
         advanced (len payload) [] (inPacket ph [] (connOn []))).
Proof.
  split; [reflexivity|]. split; [reflexivity|]. split; [reflexivity|].
  exact (readPacket_error Z Z.eqb 3 2 4 (fun _ => ret (0, None)) []
           (mkClientFlag true true false true true) 2 1045 Byte.x23
           (bytes_of_string "28000") (bytes_of_string "Access denied") [] (connOn [])
           eq_refl eq_refl).
Defined.

(** X23: an OK or EOF packet comes back decoded and without an error. For a
    framed packet whose status byte is [0x00] or [0xFE] the dispatcher
    returns the OK packet that [decodeOKPacket] builds, with both counts 0,
    and stops at the end of the packet. *)
Theorem readPacket_ok
  (AuthData : Type) (AuthData_eqb : AuthData -> AuthData -> bool)
  (fast publicKey fullAuth : AuthData)
  (decodeAuthMoreData : PacketHeader -> M (AuthData * option error))
  (Pass : list byte) (flags : ClientFlag)
  (sID : Z) (st a l : byte) (statusFlags : Z) (warnings : byte)
  (info rest : list byte) (c : Conn) :
  let payload := a :: l :: okStatusFields flags statusFlags warnings ++ info in
  let ph := mkPacketHeader (len (st :: payload)) (sID mod 256) (byte_to_Z st) in
  st = Byte.x00 \/ st = Byte.xfe ->
  len (st :: payload) < 2 ^ 24 ->
  readPacket AuthData AuthData_eqb fast publicKey fullAuth decodeAuthMoreData Pass flags
    (feedClean (frameOf sID (st :: payload) ++ rest) c)
  = Val ((AnOKPacket
            (mkOKPacket ph (byte_to_Z st) 0 0
               (if Protocol41 flags || Transactions flags
                then statusFlags mod 2 ^ 16 else 0)
               (if Protocol41 flags then byte_to_Z warnings else 0)
               info []), None),
         advanced (len payload) rest (inPacket ph [] c)).
Proof.
  intros payload ph Hst Hlen. unfold readPacket.
  unfold bind at 1. rewrite getPacketHeader_frame.
  change (len (_ :: payload)) with (Length ph).
  change (len (_ :: payload)) with (Length ph) in Hlen.
  assert (HL : Length ph = len payload + 1)
    by (unfold ph, len; cbn [Length];
        change (length (_ :: payload)) with (S (length payload)); lia).
  assert (Hpos : 0 <= len payload) by (unfold len; lia).
  rewrite (Z.mod_small (Length ph) (2 ^ 24)) by lia.
  change (mkPacketHeader (Length ph) (sID mod 256) (byte_to_Z st)) with ph.
  cbn [fst snd].
  assert (Hs : (Status ph =? StatusAuth) = false /\
               ((Status ph =? StatusEOF) || (Status ph =? StatusOK)) = true)
    by (unfold ph; cbn [Status]; destruct Hst as [-> | ->]; split; reflexivity).
  destruct Hs as [Hs1 Hs2]. rewrite Hs1, Hs2.
  unfold bind at 1.
  pose proof (decodeOKPacket_body flags ph a l statusFlags warnings info rest c HL Hlen)
    as Hbody.
  cbv zeta in Hbody. unfold payload. rewrite Hbody.
  cbn [fst snd]. unfold bind, get. rewrite Err_clean. reflexivity.
Qed.

Lemma readPacket_ok_witness :
  let flags := mkClientFlag true true false true true in
  let payload := Byte.x00 :: Byte.x00 :: okStatusFields flags 2 Byte.x00 ++ [] in
  let ph := mkPacketHeader (len (Byte.xfe :: payload)) (3 mod 256) (byte_to_Z Byte.xfe) in
  (Byte.xfe = Byte.x00 \/ Byte.xfe = Byte.xfe) /\
  len (Byte.xfe :: payload) < 2 ^ 24 /\
  readPacket Z Z.eqb 3 2 4 (fun _ => ret (0, None)) [] flags
    (feedClean (frameOf 3 (Byte.xfe :: payload) ++ []) (connOn []))
  = Val ((AnOKPacket
            (mkOKPacket ph (byte_to_Z Byte.xfe) 0 0
               (if Protocol41 flags || Transactions flags then 2 mod 2 ^ 16 else 0)
               (if Protocol41 flags then byte_to_Z Byte.x00 else 0)
               [] []), None),
         advanced (len payload) [] (inPacket ph [] (connOn []))).
Proof.
  cbv zeta. split; [right; reflexivity|]. split; [reflexivity|].
  exact (readPacket_ok Z Z.eqb 3 2 4 (fun _ => ret (0, None)) []
           (mkClientFlag true true false true true) 3 Byte.xfe Byte.x00 Byte.x00 2
           Byte.x00 [] [] (connOn []) (or_intror eq_refl) eq_refl).
Defined.

(** X24: on a request for full authentication the password leaves in the
    clear. When a packet with status [0x01] arrives and the continuation
    decoder reports the value that stands for full authentication, the
    dispatcher queues the configured password followed by a null byte and
    flushes it as one packet under the current sequence ID; it returns no
    packet and no error. *)
Theorem readPacket_full_authentication
  (AuthData : Type) (AuthData_eqb : AuthData -> AuthData -> bool)
  (fast publicKey fullAuth : AuthData)
  (decodeAuthMoreData : PacketHeader -> M (AuthData * option error))
  (Pass : list byte) (flags : ClientFlag)
  (sID : Z) (payload rest : list byte) (c c2 : Conn) (d : AuthData) :
  let ph := mkPacketHeader (len (Byte.x01 :: payload) mod 2 ^ 24) (sID mod 256)
                           StatusAuth in
  decodeAuthMoreData ph (inPacket ph (payload ++ rest) c) = Val ((d, None), c2) ->
  AuthData_eqb d fast = false ->
  AuthData_eqb d publicKey = false ->
  AuthData_eqb d fullAuth = true ->
  ready c2 ->
  Err (scanner c2) = None ->
  readPacket AuthData AuthData_eqb fast publicKey fullAuth decodeAuthMoreData Pass flags
    (feedClean (frameOf sID (Byte.x01 :: payload) ++ rest) c)
  = Val ((NoPacket, None), afterFlush (accumulated c2 ++ Pass ++ [NullByte]) c2).
Proof.
  intros ph Hdec Hfast Hkey Hfull Hready Herr. unfold readPacket.
  unfold bind at 1. rewrite getPacketHeader_frame.
  change (byte_to_Z Byte.x01) with StatusAuth.
  change (mkPacketHeader (len (Byte.x01 :: payload) mod 2 ^ 24) (sID mod 256) StatusAuth)
    with ph.
  cbn [fst snd]. change (Status ph =? StatusAuth) with true. cbv iota.
  unfold bind at 1. rewrite Hdec. cbn [fst snd]. rewrite Hfast, Hkey, Hfull.
  unfold bind at 1. rewrite putBytes_queued.
  unfold bind at 1. rewrite Flush_ready by exact Hready.
  unfold bind, get.
  replace (Err (scanner (afterFlush (accumulated c2 ++ Pass ++ [NullByte]) c2)))
    with (Err (scanner c2)) by (destruct c2; reflexivity).
  rewrite Herr. reflexivity.
Qed.

Lemma readPacket_full_authentication_witness :
  let ph := mkPacketHeader (len (Byte.x01 :: [Byte.x04]) mod 2 ^ 24) (2 mod 256) StatusAuth in
  let c2 := inPacket ph ([Byte.x04] ++ []) (connOn []) in
  ready c2 /\ Err (scanner c2) = None /\
  readPacket Z Z.eqb 3 2 4 (fun _ => ret (4, None)) (bytes_of_string "secret")
    (mkClientFlag true true false true true)
    (feedClean (frameOf 2 (Byte.x01 :: [Byte.x04]) ++ []) (connOn []))
  = Val ((NoPacket, None),
         afterFlush (accumulated c2 ++ bytes_of_string "secret" ++ [NullByte]) c2).
Proof.
  cbv zeta.
  assert (Hr : ready (inPacket (mkPacketHeader (len (Byte.x01 :: [Byte.x04]) mod 2 ^ 24)
                                  (2 mod 256) StatusAuth)
                        ([Byte.x04] ++ []) (connOn []))) by (repeat split).
  split; [exact Hr|]. split; [reflexivity|].
  exact (readPacket_full_authentication Z Z.eqb 3 2 4 (fun _ => ret (4, None))
           (bytes_of_string "secret") (mkClientFlag true true false true true)
           2 [Byte.x04] [] (connOn []) _ 4 eq_refl eq_refl eq_refl eq_refl Hr eq_refl).
Defined.

(** ** The width of a fixed-length integer *)

(** X25: [encFixedLenInt] serves widths up to eight bytes only. For
    [0 <= l <= 8] it returns exactly [l] bytes, none for [l = 0]; for a
    wider request the slice of its eight-byte buffer is out of range and it
    panics, and so does [putInt] with the fixed-integer type. *)
Theorem encFixedLenInt_width (v l : Z) (c : Conn) :
  (0 <= l <= 8 ->
   exists bs, encFixedLenInt v l = Val bs /\ len bs = l) /\
  (8 < l ->
   encFixedLenInt v l = Panic "slice bounds out of range"%string /\
   putInt TypeFixedInt v l c = Panic "slice bounds out of range"%string).
Proof.
  split.
  - intros Hl. exists (le_bytes (Z.to_nat l) v). split.
    + rewrite <- (Z2Nat.id l) at 1 by lia. apply encFixedLenInt_le_bytes. lia.
    + unfold len. rewrite length_le_bytes. lia.
  - intros Hl.
    assert (E : encFixedLenInt v l = Panic "slice bounds out of range"%string).
    { unfold encFixedLenInt. destruct (Z.leb_spec l 8); [lia | reflexivity]. }
    split; [exact E|].
    unfold putInt. change (TypeFixedInt =? TypeFixedInt) with true. cbv iota.
    rewrite E. reflexivity.
Qed.

Lemma encFixedLenInt_width_witness :
  8 < 9 /\
  putInt TypeFixedInt 1 9 (connOn []) = Panic "slice bounds out of range"%string.
Proof.
  split; [reflexivity|].
  exact (proj2 (proj2 (encFixedLenInt_width 1 9 (connOn [])) eq_refl)).
Defined.
